(** * YARPC: a shallow embedding of the RPC runtime and its specification

    The development follows the source files of the repository: the
    [codec] package (header, codec interface, gob codec), the method
    registry ([newService], [registerMethods], [newArgv]), the server
    ([Register], [findService]) and the client ([parseOptions], [Close],
    [registerCall], [terminateCalls], [receive], [send], [Go]), with the
    demonstration program of main.go as the running example.

    Conventions.
    - A Go [error] is a value carrying its message; the nil error is [None].
    - [uint64] is a [Z] reduced modulo [2^64] wherever the code increments.
    - Go maps are stdpp [gmap]s; ranging over a map visits [map_to_list].
    - Code that calls into a collaborator (the codec, the gob encoder, a
      channel, a mutex) is written in a small state monad, and leaves an
      event in a log, so that a flush, a close, a signal and the order in
      which locks are taken can be observed.
    - A [Call], an [Option] and a value made by [reflect.New] live at an
      address of a store: what the code does through a pointer is done to
      the store.
    - [log.Println] and [log.Printf] only print; they are left out.
      [log.Fatalf] and [log.Panic] end the computation with [Fatal] and
      [Panic]. *)

From Stdlib Require Import ZArith Lia Ascii String Sorted.
From stdpp Require Import gmap strings list fin_maps.

Set Warnings "-register-all".

Local Open Scope Z_scope.
Local Open Scope string_scope.

(** ** Go errors *)

(** [errors.New msg]; [Error_msg e] is [e.Error()]. *)
Record error := errors_New { Error_msg : string }.

Global Instance error_eq_dec : EqDecision error.
Proof. solve_decision. Defined.

(** [err != nil] *)
Definition is_err (e : option error) : bool :=
  match e with Some _ => true | None => false end.

(** ** A state monad for code that talks to collaborators *)

Definition M (S A : Type) : Type := S -> A * S.

Definition ret {S A} (a : A) : M S A := fun s => (a, s).
Definition bind {S A B} (m : M S A) (k : A -> M S B) : M S B :=
  fun s => let '(a, s') := m s in k a s'.

Declare Scope go_scope.
Delimit Scope go_scope with go.
Notation "x <- m ;; k" := (bind m (fun x => k))
  (at level 100, m at next level, right associativity) : go_scope.
Notation "m ;;; k" := (bind m (fun _ => k))
  (at level 100, right associativity) : go_scope.

(** ** Package codec *)

Module codec.

(** [type Header struct { ServiceMethod string; Seq uint64; Error string }] *)
Record Header := mkHeader {
  ServiceMethod : string;
  Seq : Z;
  Error : string;
}.

(** [type Type string] and [GobType] *)
Definition Type_ := string.
Definition GobType : Type_ := "application/gob".

(** [type Codec interface]: the four operations, on a codec state [C].
    [ReadHeader] either fills a header or fails. [ReadBody slot] decodes
    one body; [slot = false] is [ReadBody(nil)], which consumes and
    discards it; with a slot, the decoded body is returned to be stored
    through the pointer the caller passed. *)
Class Codec (C Body : Type) := {
  Close : C -> option error * C;
  ReadHeader : C -> (error + Header) * C;
  ReadBody : bool -> C -> (option error * option Body) * C;
  Write : Header -> Body -> C -> option error * C;
}.

(** *** GobCodec

    [conn], [buf] (a [bufio.Writer] on [conn]), [dec] and [enc] (gob, on
    [conn] and on [buf]) are objects of the Go library. Their joint state
    is a type [W]; what each call returns and how it changes [W] is given
    by a [GobLib]. *)
Section Gob.
Context {W Body : Type}.

Record GobLib := {
  enc_Encode : Header + Body -> W -> option error * W;
  dec_Decode_header : W -> (error + Header) * W;
  dec_Decode_body : bool -> W -> (option error * option Body) * W;
  buf_Flush : W -> option error * W;
  conn_Close : W -> option error * W;
}.

(** The calls a [GobCodec] makes on its fields, in order. *)
Inductive Event :=
| EvEncode (x : Header + Body)
| EvDecodeHeader
| EvDecodeBody
| EvFlush
| EvClose.

Record GobCodec := mkGobCodec {
  world : W;
  events : list Event;
}.

Variable lib : GobLib.

(** One library call: apply it to the world and log it. *)
Definition call {A} (ev : Event) (f : W -> A * W) : M GobCodec A :=
  fun c => let '(a, w) := f (world c) in
           (a, {| world := w; events := events c ++ [ev] |}).

(** [GobCodec.Close]: [return c.conn.Close()] *)
Definition GobCodec_Close : M GobCodec (option error) :=
  call EvClose (conn_Close lib).

Definition GobCodec_ReadHeader : M GobCodec (error + Header) :=
  call EvDecodeHeader (dec_Decode_header lib).

Definition GobCodec_ReadBody (slot : bool) : M GobCodec (option error * option Body) :=
  call EvDecodeBody (dec_Decode_body lib slot).

(** The statements of [Write] between the [defer] and the end: encode
    the header, then the body; the first failure is returned. *)
Definition Write_body (h : Header) (body : Body) : M GobCodec (option error) :=
  (e1 <- call (EvEncode (inl h)) (enc_Encode lib (inl h)) ;;
   match e1 with
   | Some e => ret (Some e)
   | None =>
       e2 <- call (EvEncode (inr body)) (enc_Encode lib (inr body)) ;;
       match e2 with
       | Some e => ret (Some e)
       | None => ret None
       end
   end)%go.

(** The deferred function: flush, dropping the flush's result, and
    close when the named result [err] is not nil. *)
Definition Write_deferred (err : option error) : M GobCodec unit :=
  (call EvFlush (buf_Flush lib) ;;;
   if is_err err then GobCodec_Close ;;; ret tt else ret tt)%go.

(** [GobCodec.Write(h, body) (err error)]: the body, then the deferred
    function, which sees the result the body returned. *)
Definition GobCodec_Write (h : Header) (body : Body) : M GobCodec (option error) :=
  (err <- Write_body h body ;;
   Write_deferred err ;;;
   ret err)%go.

(** The source asserts that a [GobCodec] pointer implements [Codec]. *)
Definition GobCodec_Codec : Codec GobCodec Body := {|
  Close := GobCodec_Close;
  ReadHeader := GobCodec_ReadHeader;
  ReadBody := GobCodec_ReadBody;
  Write := GobCodec_Write;
|}.

(** What the two [Encode] calls of a [Write] started in world [w]
    return: the error of the first that fails. *)
Definition encode_error (h : Header) (body : Body) (w : W) : option error :=
  match enc_Encode lib (inl h) w with
  | (Some e, _) => Some e
  | (None, w1) => fst (enc_Encode lib (inr body) w1)
  end.

(** The world when the deferred flush of that [Write] runs. *)
Definition world_at_flush (h : Header) (body : Body) (w : W) : W :=
  match enc_Encode lib (inl h) w with
  | (Some _, w1) => w1
  | (None, w1) => snd (enc_Encode lib (inr body) w1)
  end.

(** The calls of that [Write] before the flush. *)
Definition encode_events (h : Header) (body : Body) (w : W) : list Event :=
  match enc_Encode lib (inl h) w with
  | (Some _, _) => [EvEncode (inl h)]
  | (None, _) => [EvEncode (inl h); EvEncode (inr body)]
  end.

(** The claim "write fails exactly when an I/O or encode error occurs",
    with the flush counted among the I/O: the result is an error iff
    one of the calls [Write] makes on the encoder or on the buffered
    writer returned one. *)
Definition Write_fails_iff_any_error (h : Header) (body : Body) (c : GobCodec) : Prop :=
  is_err (fst (GobCodec_Write h body c)) = true <->
  (is_err (encode_error h body (world c)) = true \/
   is_err (fst (buf_Flush lib (world_at_flush h body (world c)))) = true).

End Gob.

Arguments GobLib : clear implicits.
Arguments GobCodec : clear implicits.
Arguments Event : clear implicits.

(** A small library instance: units are queued by the encoder in the
    buffered writer and reach the wire on flush; an encoder refuses the
    bodies [encodable] rejects; writing to a connection that is closed or
    whose peer is gone fails; nothing arrives, so that the decoder is at
    the end of the stream. *)
Section Wire.
Context {Body : Type}.
Variable encodable : Body -> bool.

Record Wire := mkWire {
  wire : list (Header + Body);
  buffered : list (Header + Body);
  closed : bool;
  peer_gone : bool;
}.

Definition wire_Encode (x : Header + Body) (w : Wire) : option error * Wire :=
  let ok := match x with inl _ => true | inr b => encodable b end in
  if ok then
    (None, {| wire := wire w; buffered := buffered w ++ [x];
              closed := closed w; peer_gone := peer_gone w |})
  else (Some (errors_New "gob: type not supported"), w).

Definition wire_Flush (w : Wire) : option error * Wire :=
  match buffered w with
  | [] => (None, w)
  | _ :: _ =>
      if closed w || peer_gone w
      then (Some (errors_New "write: broken pipe"), w)
      else (None, {| wire := wire w ++ buffered w; buffered := [];
                     closed := closed w; peer_gone := peer_gone w |})
  end.

Definition wire_Close (w : Wire) : option error * Wire :=
  (if closed w then Some (errors_New "use of closed network connection") else None,
   {| wire := wire w; buffered := buffered w;
      closed := true; peer_gone := peer_gone w |}).

Definition wire_lib : GobLib Wire Body := {|
  enc_Encode := wire_Encode;
  dec_Decode_header := fun w => (inl (errors_New "EOF"), w);
  dec_Decode_body := fun _ w => ((Some (errors_New "EOF"), None), w);
  buf_Flush := wire_Flush;
  conn_Close := wire_Close;
|}.
End Wire.

End codec.

(** ** How a Go computation ends *)

(** A value, a panic ([log.Panic], a nil dereference, a misuse of
    [reflect]) or the end of the process ([log.Fatalf]). *)
Inductive outcome (A : Type) :=
| Ret (a : A)
| Panic (msg : string)
| Fatal (msg : string).
Arguments Ret {A} a.
Arguments Panic {A} msg.
Arguments Fatal {A} msg.

(** ** Package go/ast: [IsExported] *)

(** [ast.IsExported(name)]: the name begins with an upper-case letter.
    Names are taken over ASCII; the empty name is not exported. *)
Definition is_upper (c : ascii) : bool :=
  let n := N_of_ascii c in ((65 <=? n) && (n <=? 90))%N.

Definition ast_IsExported (name : string) : bool :=
  match name with
  | EmptyString => false
  | String c _ => is_upper c
  end.

(** ** Package reflect: types, values and the heap they point into *)

Module reflect.

(** [reflect.Kind] *)
Inductive Kind :=
| Invalid | Bool | Int | Int8 | Int16 | Int32 | Int64
| Uint | Uint8 | Uint16 | Uint32 | Uint64 | Uintptr
| Float32 | Float64 | Complex64 | Complex128
| Chan | Func | Interface | Map | Ptr | Slice | String | Struct.

Global Instance Kind_eq_dec : EqDecision Kind.
Proof. solve_decision. Defined.

(** The predeclared non-composite types. *)
Inductive Basic :=
| BBool | BInt | BInt8 | BInt16 | BInt32 | BInt64
| BUint | BUint8 | BUint16 | BUint32 | BUint64 | BUintptr
| BFloat32 | BFloat64 | BComplex64 | BComplex128 | BString.

(** [reflect.Type]. [ErrorT] is the predeclared interface [error];
    [Named pkg name under] is the type declared as [name] in package
    [pkg]; the other constructors are the unnamed composite types. *)
Inductive Type_ :=
| BasicT (b : Basic)
| ErrorT
| Named (pkg name : string) (under : Type_)
| PtrT (elem : Type_)
| StructT (fields : list (string * Type_))
| MapT (key elem : Type_)
| SliceT (elem : Type_)
| ChanT (elem : Type_)
| FuncT (ins outs : list Type_)
| InterfaceT.

Definition Basic_name (b : Basic) : string :=
  match b with
  | BBool => "bool" | BInt => "int" | BInt8 => "int8" | BInt16 => "int16"
  | BInt32 => "int32" | BInt64 => "int64" | BUint => "uint" | BUint8 => "uint8"
  | BUint16 => "uint16" | BUint32 => "uint32" | BUint64 => "uint64"
  | BUintptr => "uintptr" | BFloat32 => "float32" | BFloat64 => "float64"
  | BComplex64 => "complex64" | BComplex128 => "complex128" | BString => "string"
  end.

Definition Basic_kind (b : Basic) : Kind :=
  match b with
  | BBool => Bool | BInt => Int | BInt8 => Int8 | BInt16 => Int16
  | BInt32 => Int32 | BInt64 => Int64 | BUint => Uint | BUint8 => Uint8
  | BUint16 => Uint16 | BUint32 => Uint32 | BUint64 => Uint64
  | BUintptr => Uintptr | BFloat32 => Float32 | BFloat64 => Float64
  | BComplex64 => Complex64 | BComplex128 => Complex128 | BString => String
  end.

(** [t.Kind()] *)
Fixpoint Kind_of (t : Type_) : Kind :=
  match t with
  | BasicT b => Basic_kind b
  | ErrorT => Interface
  | Named _ _ under => Kind_of under
  | PtrT _ => Ptr
  | StructT _ => Struct
  | MapT _ _ => Map
  | SliceT _ => Slice
  | ChanT _ => Chan
  | FuncT _ _ => Func
  | InterfaceT => Interface
  end.

(** [t.Name()]: the name of a predeclared or declared type, empty for an
    unnamed composite type (so for every [*T]). *)
Definition Name (t : Type_) : string :=
  match t with
  | BasicT b => Basic_name b
  | ErrorT => "error"
  | Named _ name _ => name
  | _ => ""
  end.

(** [t.PkgPath()]: empty for predeclared and for unnamed types. *)
Definition PkgPath (t : Type_) : string :=
  match t with
  | Named pkg _ _ => pkg
  | _ => ""
  end.

(** [t.Elem()] on a pointer type (looking through a declared name);
    [None] where reflect panics. *)
Fixpoint Elem_type (t : Type_) : option Type_ :=
  match t with
  | PtrT e | SliceT e | ChanT e | MapT _ e => Some e
  | Named _ _ under => Elem_type under
  | _ => None
  end.

(** [t.NumIn()], [t.NumOut()], [t.In(i)], [t.Out(i)] of a function type.
    Out of range reflect panics; the callers below guard the index, and
    the model answers [InterfaceT] there. *)
Definition ins_of (t : Type_) : list Type_ :=
  match t with FuncT ins _ => ins | _ => [] end.
Definition outs_of (t : Type_) : list Type_ :=
  match t with FuncT _ outs => outs | _ => [] end.
Definition NumIn (t : Type_) : nat := length (ins_of t).
Definition NumOut (t : Type_) : nat := length (outs_of t).
Definition In_ (t : Type_) (i : nat) : Type_ := nth i (ins_of t) InterfaceT.
Definition Out (t : Type_) (i : nat) : Type_ := nth i (outs_of t) InterfaceT.

(** [t == reflect.TypeOf(( *error)(nil)).Elem()]: the predeclared
    [error] is one type, the constructor [ErrorT]. *)
Definition is_error_type (t : Type_) : bool :=
  match t with ErrorT => true | _ => false end.

(** Addresses and the data of Go values. A pointer is nil or an
    address; maps and slices are nil or hold their elements; [VNil] is
    the nil func, chan or interface. Floats are kept as their bits. *)
Definition loc := positive.

Inductive Data :=
| VBool (b : bool)
| VInt (n : Z)
| VFloat (bits : Z)
| VComplex (re im : Z)
| VString (s : string)
| VPtr (p : option loc)
| VStruct (fields : list Data)
| VMap (m : option (list (Data * Data)))
| VSlice (s : option (list Data))
| VNil.

Definition zero_basic (b : Basic) : Data :=
  match b with
  | BBool => VBool false
  | BFloat32 | BFloat64 => VFloat 0
  | BComplex64 | BComplex128 => VComplex 0 0
  | BString => VString ""
  | _ => VInt 0
  end.

(** The zero value of a type. *)
Fixpoint zero (t : Type_) : Data :=
  match t with
  | BasicT b => zero_basic b
  | ErrorT => VNil
  | Named _ _ under => zero under
  | PtrT _ => VPtr None
  | StructT fields =>
      VStruct ((fix zeros (fs : list (string * Type_)) : list Data :=
                  match fs with
                  | [] => []
                  | (_, ft) :: fs' => zero ft :: zeros fs'
                  end) fields)
  | MapT _ _ => VMap None
  | SliceT _ => VSlice None
  | ChanT _ => VNil
  | FuncT _ _ => VNil
  | InterfaceT => VNil
  end.

Abbreviation Heap := (gmap loc Data).

(** [reflect.Value]: the zero Value, or a type with its data and, when
    the value is addressable, the address it lives at. *)
Inductive Value :=
| ZeroValue
| Val (t : Type_) (d : Data) (addr : option loc).

(** An [interface{}] argument: nil, or a dynamic type with its data. *)
Definition iface := option (Type_ * Data).

(** [reflect.ValueOf(i)] and [reflect.TypeOf(i)] *)
Definition ValueOf (i : iface) : Value :=
  match i with
  | None => ZeroValue
  | Some (t, d) => Val t d None
  end.
Definition TypeOf (i : iface) : option Type_ :=
  match i with
  | None => None
  | Some (t, _) => Some t
  end.

(** [reflect.New(t)]: a pointer to a new zero value of [t]; the Value
    returned has type [*t]. *)
Definition New (t : Type_) : M Heap Value :=
  fun h => let l := fresh (dom h) in
           (Val (PtrT t) (VPtr (Some l)) None, <[l := zero t]> h).

(** [v.Kind()] *)
Definition Value_Kind (v : Value) : Kind :=
  match v with
  | ZeroValue => Invalid
  | Val t _ _ => Kind_of t
  end.

(** [v.Type()] *)
Definition Value_Type (v : Value) : outcome Type_ :=
  match v with
  | ZeroValue => Panic "reflect: call of reflect.Value.Type on zero Value"
  | Val t _ _ => Ret t
  end.

(** [v.Elem()] for a pointer: the zero Value for nil, else the
    addressable value it points to. (No interface Value arises here:
    [ValueOf] unpacks its argument.) *)
Definition Value_Elem (v : Value) (h : Heap) : outcome Value :=
  match v with
  | Val t (VPtr p) _ =>
      match Elem_type t, p with
      | Some e, None => Ret ZeroValue
      | Some e, Some l =>
          match h !! l with
          | Some d => Ret (Val e d (Some l))
          | None => Panic "invalid memory address"
          end
      | None, _ => Panic "reflect: call of reflect.Value.Elem on non-pointer Value"
      end
  | _ => Panic "reflect: call of reflect.Value.Elem on non-pointer Value"
  end.

(** [reflect.Indirect(v)] *)
Definition Indirect (v : Value) (h : Heap) : outcome Value :=
  if decide (Value_Kind v = Ptr) then Value_Elem v h else Ret v.

(** [v.IsNil()] for a pointer Value *)
Definition IsNil (v : Value) : bool :=
  match v with
  | Val _ (VPtr None) _ => true
  | _ => false
  end.

(** Methods as a program declares them on a named type: the name, whether
    the receiver is a pointer, and the parameters and results after the
    receiver. *)
Record MethodDecl := mkMethodDecl {
  m_name : string;
  m_ptr_recv : bool;
  m_ins : list Type_;
  m_outs : list Type_;
}.

(** [reflect.Method]: name and type, the type taking the receiver as
    its first input. (The [Func] handle is only used by [service.call].) *)
Record Method := mkMethod {
  Method_Name : string;
  Method_Type : Type_;
}.

Section MethodSets.
(** The method declarations of the program, by package and type name. *)
Variable decls : string -> string -> list MethodDecl.

(** The method set reflect exposes for [t]: the exported methods of a
    declared type with a value receiver, and for a pointer to a declared
    type those with either receiver. reflect lists them sorted by name;
    they are kept in declaration order here. *)
Definition method_set (t : Type_) : list MethodDecl :=
  match t with
  | Named pkg name _ =>
      filter (fun m => ast_IsExported (m_name m) && negb (m_ptr_recv m) = true)
             (decls pkg name)
  | PtrT (Named pkg name _) =>
      filter (fun m => ast_IsExported (m_name m) = true) (decls pkg name)
  | _ => []
  end.

(** [t.NumMethod()] and the list of [t.Method(i)] for [i] below it. *)
Definition Methods (t : Type_) : list Method :=
  map (fun m => {| Method_Name := m_name m;
                   Method_Type := FuncT (t :: m_ins m) (m_outs m) |})
      (method_set t).
Definition NumMethod (t : Type_) : nat := length (Methods t).
End MethodSets.

End reflect.

(** ** service.go: the method registry *)

Module service_go.
Import reflect.

(** [type methodType struct { method; ArgType; ReplyType }] *)
Record methodType := mkMethodType {
  method : Method;
  ArgType : Type_;
  ReplyType : Type_;
}.

(** [type service struct { name; typ; rcvr; method }] *)
Record service := mkService {
  name : string;
  typ : Type_;
  rcvr : Value;
  method_map : gmap string methodType;
}.

(** [func (m *methodType) newArgv() reflect.Value]. Both branches of
    the source are the same expression, [reflect.New(m.ArgType).Elem()]. *)
Definition newArgv (m : methodType) : M Heap (outcome Value) :=
  if decide (Kind_of (ArgType m) = Ptr) then
    (p <- New (ArgType m) ;; fun h => (Value_Elem p h, h))%go
  else
    (p <- New (ArgType m) ;; fun h => (Value_Elem p h, h))%go.

(** [func isExportedOrBuiltinType(t reflect.Type) bool] *)
Definition isExportedOrBuiltinType (t : Type_) : bool :=
  ast_IsExported (Name t) || bool_decide (PkgPath t = "").

(** The descriptor the loop of [registerMethods] stores for a method, if
    it stores one: the conditions of its three [continue]s, negated. *)
Definition eligible (m : Method) : option methodType :=
  let mType := Method_Type m in
  if (NumIn mType =? 3)%nat && (NumOut mType =? 1)%nat
     && is_error_type (Out mType 0)
     && isExportedOrBuiltinType (In_ mType 1)
     && isExportedOrBuiltinType (In_ mType 2)
  then Some {| method := m; ArgType := In_ mType 1; ReplyType := In_ mType 2 |}
  else None.

Section Registry.
Variable decls : string -> string -> list MethodDecl.

(** One turn of the loop of [registerMethods] on [s.typ.Method(i)]:
    the three [continue]s, else the store into [s.method]. *)
Definition registerMethod (acc : gmap string methodType) (m : Method)
  : gmap string methodType :=
  let mType := Method_Type m in
  if negb (NumIn mType =? 3)%nat || negb (NumOut mType =? 1)%nat then acc
  else if negb (is_error_type (Out mType 0)) then acc
  else
    let argType := In_ mType 1 in
    let replyType := In_ mType 2 in
    if negb (isExportedOrBuiltinType argType)
       || negb (isExportedOrBuiltinType replyType) then acc
    else <[Method_Name m := {| method := m; ArgType := argType;
                               ReplyType := replyType |}]> acc.

(** [func (s *service) registerMethods()] *)
Definition registerMethods (s : service) : service :=
  {| name := name s; typ := typ s; rcvr := rcvr s;
     method_map := fold_left registerMethod (Methods decls (typ s)) ∅ |}.

(** [func newService(rcvr interface{}) *service]. [reflect.TypeOf] of
    the nil interface is the nil Type, on which [NumMethod] panics;
    [Type()] of the zero Value has panicked before that. *)
Definition newService (rcvr : iface) (h : Heap) : outcome service :=
  let v := ValueOf rcvr in
  match Indirect v h with
  | Ret iv =>
      match Value_Type iv with
      | Ret t =>
          let n := Name t in
          match TypeOf rcvr with
          | Some ty =>
              if negb (ast_IsExported n)
              then Fatal ("rpc server: " ++ n ++ " is not a valie service name")
              else Ret (registerMethods
                          {| name := n; typ := ty; rcvr := v; method_map := ∅ |})
          | None => Panic "invalid memory address or nil pointer dereference"
          end
      | Panic msg => Panic msg
      | Fatal msg => Fatal msg
      end
  | Panic msg => Panic msg
  | Fatal msg => Fatal msg
  end.
End Registry.

End service_go.

(** ** Package strings: [LastIndex], and slicing *)

(** [strings.LastIndex(s, sep)]: the index of the last occurrence of
    [sep] in [s], or -1. [last_from] walks [s] from index [i], keeping
    in [acc] the last index seen so far. *)
Fixpoint last_from (sep s : string) (i acc : Z) : Z :=
  let acc' := if String.prefix sep s then i else acc in
  match s with
  | EmptyString => acc'
  | String _ s' => last_from sep s' (i + 1) acc'
  end.

Definition strings_LastIndex (s sep : string) : Z := last_from sep s 0 (-1).

(** [s[:i]] and [s[i:]] for an index within the string. *)
Definition slice_to (s : string) (i : Z) : string :=
  String.substring 0 (Z.to_nat i) s.
Definition slice_from (s : string) (i : Z) : string :=
  String.substring (Z.to_nat i) (String.length s - Z.to_nat i) s.

(** The string holds no ['.']. *)
Fixpoint dotless (s : string) : bool :=
  match s with
  | EmptyString => true
  | String c s' => negb (Ascii.eqb c ".") && dotless s'
  end.

(** ** server.go: options, the service map, [Register], [findService] *)

Module server_go.
Import reflect service_go.

(** [const MagicNumber = 0x3bef5c] *)
Definition MagicNumber : Z := 0x3bef5c.

(** [type Option struct { MagicNumber int; CodecType codec.Type }] *)
Record Option := mkOption {
  Option_MagicNumber : Z;
  Option_CodecType : codec.Type_;
}.

(** [type Server struct { serviceMap sync.Map }]: service name to service. *)
Record Server := mkServer {
  serviceMap : gmap string service;
}.

(** [func NewServer() *Server] *)
Definition NewServer : Server := {| serviceMap := ∅ |}.

Section Registry.
Variable decls : string -> string -> list MethodDecl.

(** [func (server *Server) Register(rcvr interface{}) error]:
    [LoadOrStore] keeps an entry that is already there. *)
Definition Register (rcvr : iface) (h : Heap) (server : Server)
  : outcome (option error * Server) :=
  match newService decls rcvr h with
  | Ret s =>
      match serviceMap server !! name s with
      | Some _ => Ret (Some (errors_New ("rpc: service already defined: " ++ name s)),
                       server)
      | None => Ret (None, {| serviceMap := <[name s := s]> (serviceMap server) |})
      end
  | Panic msg => Panic msg
  | Fatal msg => Fatal msg
  end.
End Registry.

(** [func (server *Server) findService(serviceMethod string)
      (svc *service, mtype *methodType, err error)]: the three named
    results start nil and are returned as they stand. *)
Definition findService (server : Server) (serviceMethod : string)
  : option service * option methodType * option error :=
  let dot := strings_LastIndex serviceMethod "." in
  if (dot <? 0)%Z then
    (None, None,
     Some (errors_New ("rpc server: service/method request ill-formed: " ++ serviceMethod)))
  else
    let serviceName := slice_to serviceMethod dot in
    let methodName := slice_from serviceMethod (dot + 1) in
    match serviceMap server !! serviceName with
    | None =>
        (None, None, Some (errors_New ("rpc server:can't find service " ++ serviceName)))
    | Some svc =>
        match method_map svc !! methodName with
        | None =>
            (Some svc, None,
             Some (errors_New ("rpc server: can't find method " ++ methodName)))
        | Some mtype => (Some svc, Some mtype, None)
        end
    end.

End server_go.

(** ** A state monad with panics, for the client *)

Definition G (S A : Type) : Type := S -> outcome (A * S).

Definition gret {S A} (a : A) : G S A := fun s => Ret (a, s).
Definition gbind {S A B} (m : G S A) (k : A -> G S B) : G S B :=
  fun s => match m s with
           | Ret (a, s') => k a s'
           | Panic msg => Panic msg
           | Fatal msg => Fatal msg
           end.
Definition gpanic {S A} (msg : string) : G S A := fun _ => Panic msg.

Declare Scope rpc_scope.
Delimit Scope rpc_scope with rpc.
Notation "x <~ m ;; k" := (gbind m (fun x => k))
  (at level 100, m at next level, right associativity) : rpc_scope.
Notation "m ;;~ k" := (gbind m (fun _ => k))
  (at level 100, right associativity) : rpc_scope.

(** [for _, x := range xs { body x }] *)
Fixpoint for_each {S A} (xs : list A) (body : A -> G S unit) : G S unit :=
  match xs with
  | [] => gret tt
  | x :: xs' => (body x ;;~ for_each xs' body)%rpc
  end.

(** ** client.go *)

Module client_go.
Import codec server_go.

(** [uint64] arithmetic: [x++] wraps. *)
Definition uint64_incr (x : Z) : Z := (x + 1) mod 2 ^ 64.

(** [var ErrShutdown = errors.New("conection is shut down")] *)
Definition ErrShutdown : error := errors_New "conection is shut down".

(** Addresses of [Call] objects, channels of [*Call], [Option] objects. *)
Definition loc := positive.
Definition chan := positive.

(** [parseOptions] works on pointers to [Option]s: the store maps the
    address of each allocated [Option] to its fields. [DefaultOption]
    is the address the package variable of that name holds. *)
Abbreviation OptStore := (gmap loc Option).

Definition DefaultOption : loc := 1%positive.
Definition DefaultOption_init : Option :=
  {| Option_MagicNumber := MagicNumber; Option_CodecType := GobType |}.
(** The store when the package has been initialised. *)
Definition init_options : OptStore := {[ DefaultOption := DefaultOption_init ]}.

Definition nil_deref : string := "invalid memory address or nil pointer dereference".

(** Reading [p.f] through a pointer. *)
Definition load {A} (p : loc) : G (gmap loc A) A :=
  fun st => match st !! p with
            | Some o => Ret (o, st)
            | None => Panic nil_deref
            end.
(** Writing a field through a pointer. *)
Definition store {A} (p : loc) (f : A -> A) : G (gmap loc A) unit :=
  fun st => match st !! p with
            | Some o => Ret (tt, <[p := f o]> st)
            | None => Panic nil_deref
            end.

Definition set_MagicNumber (n : Z) (o : Option) : Option :=
  {| Option_MagicNumber := n; Option_CodecType := Option_CodecType o |}.
Definition set_CodecType (t : Type_) (o : Option) : Option :=
  {| Option_MagicNumber := Option_MagicNumber o; Option_CodecType := t |}.

(** [func parseOptions(opts ...*Option)], returning a pointer to an
    [Option] and an error; a nil pointer is [None]. *)
Definition parseOptions (opts : list (option loc))
  : G OptStore (option loc * option error) :=
  match opts with
  | [] | None :: _ => gret (Some DefaultOption, None)
  | Some opt :: _ =>
      if negb (length opts =? 1)%nat then
        gret (None, Some (errors_New "number of options is more than 1"))
      else
        (d <~ load DefaultOption ;;
         store opt (set_MagicNumber (Option_MagicNumber d)) ;;~
         o <~ load opt ;;
         (if bool_decide (Option_CodecType o = "") then
            d' <~ load DefaultOption ;;
            store opt (set_CodecType (Option_CodecType d'))
          else gret tt) ;;~
         gret (Some opt, None))%rpc
  end.

Section Client.
(** The codec of the connection, and the values that travel as
    arguments and replies. [fmt_Errorf] is [fmt.Errorf] applied to a
    format alone. *)
Context {C Body : Type} `{!Codec C Body}.
Variable fmt_Errorf : string -> error.

(** [type Call struct]. [Reply] is nil ([None]) or a pointer to a
    slot of the caller, whose content is [None] until a body has been
    decoded into it. [Done] is a channel that exists: [Go] is the only
    place a [Call] is made. *)
Record Call := mkCall {
  Call_Seq : Z;
  Call_ServiceMethod : string;
  Args : Body;
  Reply : option (option Body);
  Call_Error : option error;
  Done : chan;
}.

Definition set_Call_Seq (s : Z) (c : Call) : Call :=
  {| Call_Seq := s; Call_ServiceMethod := Call_ServiceMethod c; Args := Args c;
     Reply := Reply c; Call_Error := Call_Error c; Done := Done c |}.
Definition set_Call_Error (e : option error) (c : Call) : Call :=
  {| Call_Seq := Call_Seq c; Call_ServiceMethod := Call_ServiceMethod c;
     Args := Args c; Reply := Reply c; Call_Error := e; Done := Done c |}.
Definition set_Reply (r : option (option Body)) (c : Call) : Call :=
  {| Call_Seq := Call_Seq c; Call_ServiceMethod := Call_ServiceMethod c;
     Args := Args c; Reply := r; Call_Error := Call_Error c; Done := Done c |}.

(** [type Client struct], without the two mutexes, whose use is
    logged as events. *)
Record Client := mkClient {
  cc : C;
  opt : option loc;
  header : Header;
  seq : Z;
  pending : gmap Z loc;
  closing : bool;
  shutdown : bool;
}.

Inductive mutex := sending | mu.

(** What a client does that others can observe: taking and releasing
    its locks, and sending a call on a channel ([call.Done <- call]).
    A send is logged when it is made; when the receiver takes the
    element is a matter of scheduling. *)
Inductive Event :=
| Lock (m : mutex)
| Unlock (m : mutex)
| Send (ch : chan) (call : loc).

Global Instance mutex_eq_dec : EqDecision mutex.
Proof. solve_decision. Defined.
Global Instance Event_eq_dec : EqDecision Event.
Proof. solve_decision. Defined.

(** One client with the objects it shares with its callers: the
    [Call]s, the channels (by capacity) and the log. *)
Record World := mkWorld {
  client : Client;
  calls : gmap loc Call;
  chans : gmap chan nat;
  trace : list Event;
}.

Definition with_client (f : Client -> Client) (w : World) : World :=
  {| client := f (client w); calls := calls w; chans := chans w; trace := trace w |}.

Definition set_cc (c : C) (cl : Client) : Client :=
  {| cc := c; opt := opt cl; header := header cl; seq := seq cl;
     pending := pending cl; closing := closing cl; shutdown := shutdown cl |}.
Definition set_header (h : Header) (cl : Client) : Client :=
  {| cc := cc cl; opt := opt cl; header := h; seq := seq cl;
     pending := pending cl; closing := closing cl; shutdown := shutdown cl |}.
Definition set_seq (s : Z) (cl : Client) : Client :=
  {| cc := cc cl; opt := opt cl; header := header cl; seq := s;
     pending := pending cl; closing := closing cl; shutdown := shutdown cl |}.
Definition set_pending (p : gmap Z loc) (cl : Client) : Client :=
  {| cc := cc cl; opt := opt cl; header := header cl; seq := seq cl;
     pending := p; closing := closing cl; shutdown := shutdown cl |}.
Definition set_closing (b : bool) (cl : Client) : Client :=
  {| cc := cc cl; opt := opt cl; header := header cl; seq := seq cl;
     pending := pending cl; closing := b; shutdown := shutdown cl |}.
Definition set_shutdown (b : bool) (cl : Client) : Client :=
  {| cc := cc cl; opt := opt cl; header := header cl; seq := seq cl;
     pending := pending cl; closing := closing cl; shutdown := b |}.

Abbreviation R := (G World).

(** Primitive steps. *)
Definition emit (ev : Event) : R unit :=
  fun w => Ret (tt, {| client := client w; calls := calls w; chans := chans w;
                       trace := trace w ++ [ev] |}).
Definition the_client : R Client := fun w => Ret (client w, w).
Definition update (f : Client -> Client) : R unit :=
  fun w => Ret (tt, with_client f w).
(** A call on the codec [client.cc]. *)
Definition on_cc {A} (f : C -> A * C) : R A :=
  fun w => let '(a, c) := f (cc (client w)) in Ret (a, with_client (set_cc c) w).
(** Reading and writing a [Call] through its pointer. *)
Definition load_call (l : loc) : R Call :=
  fun w => match calls w !! l with
           | Some c => Ret (c, w)
           | None => Panic nil_deref
           end.
Definition store_call (l : loc) (f : Call -> Call) : R unit :=
  fun w => match calls w !! l with
           | Some c => Ret (tt, {| client := client w; calls := <[l := f c]> (calls w);
                                   chans := chans w; trace := trace w |})
           | None => Panic nil_deref
           end.

(** [func (call *Call) done() { call.Done <- call }] *)
Definition done (call : loc) : R unit :=
  (c <~ load_call call ;; emit (Send (Done c) call))%rpc.

(** [func (client *Client) Close() error] *)
Definition Close : R (option error) :=
  (emit (Lock mu) ;;~
   cl <~ the_client ;;
   if closing cl then
     emit (Unlock mu) ;;~ gret (Some ErrShutdown)
   else
     update (set_closing true) ;;~
     e <~ on_cc codec.Close ;;
     emit (Unlock mu) ;;~ gret e)%rpc.

(** [func (client *Client) IsAvailable() bool] *)
Definition IsAvailable : R bool :=
  (emit (Lock mu) ;;~
   cl <~ the_client ;;
   emit (Unlock mu) ;;~
   gret (negb (shutdown cl) && negb (closing cl)))%rpc.

(** [func (client *Client) registerCall(call *Call) (uint64, error)] *)
Definition registerCall (call : loc) : R (Z * option error) :=
  (emit (Lock mu) ;;~
   cl <~ the_client ;;
   if closing cl || shutdown cl then
     emit (Unlock mu) ;;~ gret (0, Some ErrShutdown)
   else
     store_call call (set_Call_Seq (seq cl)) ;;~
     c <~ load_call call ;;
     update (fun cl => set_pending (<[Call_Seq c := call]> (pending cl)) cl) ;;~
     update (fun cl => set_seq (uint64_incr (seq cl)) cl) ;;~
     emit (Unlock mu) ;;~ gret (Call_Seq c, None))%rpc.

(** [func (client *Client) removeCall(seq uint64) *Call] *)
Definition removeCall (s : Z) : R (option loc) :=
  (emit (Lock mu) ;;~
   cl <~ the_client ;;
   let call := pending cl !! s in
   update (set_pending (delete s (pending cl))) ;;~
   emit (Unlock mu) ;;~ gret call)%rpc.

(** [func (client *Client) terminateCalls(err error)]; the two
    deferred unlocks run in reverse order. *)
Definition terminateCalls (err : option error) : R unit :=
  (emit (Lock sending) ;;~
   emit (Lock mu) ;;~
   update (set_shutdown true) ;;~
   cl <~ the_client ;;
   for_each (map_to_list (pending cl))
            (fun '(_, call) => store_call call (set_Call_Error err) ;;~ done call) ;;~
   emit (Unlock mu) ;;~
   emit (Unlock sending))%rpc.

(** Why the loop of [receive] was left. *)
Inductive exit := HeaderReadFailed | BodyReadFailed.

(** One turn of the loop of [receive]: [None] when [err] is still nil
    at its end, else the error and where it came from. *)
Definition receive_turn : R (option (exit * error)) :=
  (r <~ on_cc ReadHeader ;;
   match r with
   | inl err => gret (Some (HeaderReadFailed, err))
   | inr h =>
       call <~ removeCall (Seq h) ;;
       err <~ match call with
              | None =>
                  rb <~ on_cc (ReadBody false) ;; gret (fst rb)
              | Some call =>
                  if negb (bool_decide (Error h = "")) then
                    store_call call (set_Call_Error (Some (fmt_Errorf (Error h)))) ;;~
                    rb <~ on_cc (ReadBody false) ;;
                    done call ;;~ gret (fst rb)
                  else
                    c <~ load_call call ;;
                    rb <~ on_cc (ReadBody (bool_decide (is_Some (Reply c)))) ;;
                    (match snd rb with
                     | Some v => store_call call (set_Reply (Some (Some v)))
                     | None => gret tt
                     end) ;;~
                    (match fst rb with
                     | Some e =>
                         store_call call
                           (set_Call_Error
                              (Some (errors_New ("reading body " ++ Error_msg e))))
                     | None => gret tt
                     end) ;;~
                    done call ;;~ gret (fst rb)
              end ;;
       gret (match err with
             | Some e => Some (BodyReadFailed, e)
             | None => None
             end)
   end)%rpc.

(** The loop [for err == nil { ... }], for at most [fuel] turns;
    [None] when it is still running after them. *)
Fixpoint receive_loop (fuel : nat) : R (option (exit * error)) :=
  match fuel with
  | O => gret None
  | S fuel' =>
      (r <~ receive_turn ;;
       match r with
       | Some e => gret (Some e)
       | None => receive_loop fuel'
       end)%rpc
  end.

(** [func (client *Client) receive()]: [true] when it has returned. *)
Definition receive (fuel : nat) : R bool :=
  (r <~ receive_loop fuel ;;
   match r with
   | Some (_, err) => terminateCalls (Some err) ;;~ gret true
   | None => gret false
   end)%rpc.

(** [func newClientCodec(cc codec.Codec, opt *Option) *Client]. The
    goroutine it starts runs [receive] on the client it returns. *)
Definition newClientCodec (c : C) (o : option loc) : Client :=
  {| cc := c; opt := o;
     header := {| ServiceMethod := ""; Seq := 0; Error := "" |};
     seq := 1; pending := ∅; closing := false; shutdown := false |}.

(** [func (client *Client) send(call *Call)] *)
Definition send (call : loc) : R unit :=
  (emit (Lock sending) ;;~
   r <~ registerCall call ;;
   let '(s, err) := r in
   match err with
   | Some e =>
       store_call call (set_Call_Error (Some e)) ;;~
       done call ;;~
       emit (Unlock sending)
   | None =>
       c <~ load_call call ;;
       update (fun cl => set_header {| ServiceMethod := Call_ServiceMethod c;
                                       Seq := Seq (header cl);
                                       Error := Error (header cl) |} cl) ;;~
       update (fun cl => set_header {| ServiceMethod := ServiceMethod (header cl);
                                       Seq := s;
                                       Error := Error (header cl) |} cl) ;;~
       update (fun cl => set_header {| ServiceMethod := ServiceMethod (header cl);
                                       Seq := Seq (header cl);
                                       Error := "" |} cl) ;;~
       cl <~ the_client ;;
       werr <~ on_cc (Write (header cl) (Args c)) ;;
       (match werr with
        | Some e =>
            call' <~ removeCall s ;;
            match call' with
            | Some call' => store_call call' (set_Call_Error (Some e)) ;;~ done call'
            | None => gret tt
            end
        | None => gret tt
        end) ;;~
       emit (Unlock sending)
   end)%rpc.

(** [make(chan *Call, n)] *)
Definition make_chan (n : nat) : R chan :=
  fun w => let ch := fresh (dom (chans w)) in
           Ret (ch, {| client := client w; calls := calls w;
                       chans := <[ch := n]> (chans w); trace := trace w |}).
(** [cap(ch)] of a channel that is not nil. *)
Definition cap (ch : chan) : R nat :=
  fun w => match chans w !! ch with
           | Some n => Ret (n, w)
           | None => Panic nil_deref
           end.
(** [&Call{...}] *)
Definition new_call (c : Call) : R loc :=
  fun w => let l := fresh (dom (calls w)) in
           Ret (l, {| client := client w; calls := <[l := c]> (calls w);
                      chans := chans w; trace := trace w |}).

(** [func (client *Client) Go(serviceMethod string, args, reply
    interface{}, done chan *Call) *Call] *)
Definition Go (serviceMethod : string) (args : Body) (reply : option (option Body))
           (done_ch : option chan) : R loc :=
  (d <~ match done_ch with
        | None => make_chan 10
        | Some ch =>
            n <~ cap ch ;;
            if (n =? 0)%nat
            then gpanic "rpc client: done channel is unbuffered"
            else gret ch
        end ;;
   call <~ new_call {| Call_Seq := 0; Call_ServiceMethod := serviceMethod;
                       Args := args; Reply := reply; Call_Error := None;
                       Done := d |} ;;
   send call ;;~
   gret call)%rpc.

(** *** A client's lifetime

    Every access to [seq], [pending], [closing] and [shutdown] happens
    in [registerCall], [removeCall], [Close], [IsAvailable] or
    [terminateCalls], with [mu] held from beginning to end. However the
    goroutines of a program interleave, what a client goes through is
    therefore a sequence of these five, and of the other things
    [send], [Go] and [receive] are made of: calls on the codec, stores
    into a [Call] or into [client.header], signals, allocations and
    the taking and releasing of [sending]. *)
Inductive step :=
| SRegister (call : loc)
| SRemove (s : Z)
| SClose
| SIsAvailable
| STerminate (err : option error)
| SReadHeader
| SReadBody (slot : bool)
| SWrite (h : Header) (body : Body)
| SStoreError (call : loc) (e : option error)
| SStoreReply (call : loc) (v : Body)
| SDone (call : loc)
| SSetHeader (h : Header)
| SNewChan (n : nat)
| SNewCall (c : Call)
| SLock (m : mutex)
| SUnlock (m : mutex).

(** A step, and the [seq] it assigned when it registered a call. *)
Definition run_step (s : step) : R (option Z) :=
  match s with
  | SRegister call =>
      (r <~ registerCall call ;;
       gret (match snd r with None => Some (fst r) | Some _ => None end))%rpc
  | SRemove k => (removeCall k ;;~ gret None)%rpc
  | SClose => (Close ;;~ gret None)%rpc
  | SIsAvailable => (IsAvailable ;;~ gret None)%rpc
  | STerminate err => (terminateCalls err ;;~ gret None)%rpc
  | SReadHeader => (on_cc ReadHeader ;;~ gret None)%rpc
  | SReadBody slot => (on_cc (ReadBody slot) ;;~ gret None)%rpc
  | SWrite h body => (on_cc (Write h body) ;;~ gret None)%rpc
  | SStoreError call e => (store_call call (set_Call_Error e) ;;~ gret None)%rpc
  | SStoreReply call v => (store_call call (set_Reply (Some (Some v))) ;;~ gret None)%rpc
  | SDone call => (done call ;;~ gret None)%rpc
  | SSetHeader h => (update (set_header h) ;;~ gret None)%rpc
  | SNewChan n => (make_chan n ;;~ gret None)%rpc
  | SNewCall c => (new_call c ;;~ gret None)%rpc
  | SLock m => (emit (Lock m) ;;~ gret None)%rpc
  | SUnlock m => (emit (Unlock m) ;;~ gret None)%rpc
  end.

(** The [seq]s assigned along a lifetime, in the order of the
    registrations; a panic ends the lifetime. *)
Fixpoint assigned (steps : list step) (w : World) : list Z :=
  match steps with
  | [] => []
  | s :: steps' =>
      match run_step s w with
      | Ret (Some k, w') => k :: assigned steps' w'
      | Ret (None, w') => assigned steps' w'
      | _ => []
      end
  end.

(** The world [w] after the events [evs]. *)
Definition logged (evs : list Event) (w : World) : World :=
  {| client := client w; calls := calls w; chans := chans w; trace := trace w ++ evs |}.

(** The pending table points to [Call]s that exist, each under the [seq]
    it carries; so no [Call] is in the table twice. *)
Definition pending_ok (w : World) : Prop :=
  forall k l, pending (client w) !! k = Some l ->
              exists c, calls w !! l = Some c /\ Call_Seq c = k.

(** The signals among [evs] that deliver the call [l]. *)
Definition is_signal_of (l : loc) (ev : Event) : bool :=
  match ev with
  | Send _ l' => bool_decide (l' = l)
  | _ => false
  end.
Definition signals_of (l : loc) (evs : list Event) : list Event :=
  filter (fun ev => is_signal_of l ev = true) evs.

(** The [Call]s after [call.Error = err] on each call of a list of table
    entries, and the signals sending each of them on its [Done]. *)
Definition fail_all (err : option error) (kls : list (Z * loc)) (cs : gmap loc Call)
  : gmap loc Call :=
  foldl (fun cs kl => alter (set_Call_Error err) (snd kl) cs) cs kls.
Definition signals (cs : gmap loc Call) (kls : list (Z * loc)) : list Event :=
  omap (fun kl => (fun c => Send (Done c) (snd kl)) <$> cs !! snd kl) kls.

(** The world in which a client made by [newClientCodec] starts. *)
Definition new_world (c : C) (o : option loc) (cs : gmap loc Call) (chs : gmap chan nat)
  : World :=
  {| client := newClientCodec c o; calls := cs; chans := chs; trace := [] |}.

(** A computation that keeps the pending table well formed. *)
Definition keeps_pending_ok {A} (m : R A) : Prop :=
  forall w a w', pending_ok w -> m w = Ret (a, w') -> pending_ok w'.

(** A client in good order: the pending table is well formed, every
    signal in the log delivers a [Call] that exists, and until the client
    is shut down no signal in the log delivers a call that is pending. *)
Definition client_ok (w : World) : Prop :=
  pending_ok w /\
  (forall ch l, Send ch l ∈ trace w -> is_Some (calls w !! l)) /\
  (shutdown (client w) = false ->
   forall k l, pending (client w) !! k = Some l -> forall ch, Send ch l ∉ trace w).

(** From [w] to [w'] the table and [shutdown] stay as they are, no [Call]
    goes away or changes its [Seq], and the log grows by events whose
    signals deliver [Call]s that exist and satisfy [L]. *)
Definition evolves (L : loc -> Prop) (w w' : World) : Prop :=
  pending (client w') = pending (client w) /\
  shutdown (client w') = shutdown (client w) /\
  (forall l c, calls w !! l = Some c ->
               exists c', calls w' !! l = Some c' /\ Call_Seq c' = Call_Seq c) /\
  exists evs : list Event,
    trace w' = (trace w ++ evs)%list /\
    forall ch l, Send ch l ∈ evs -> L l /\ is_Some (calls w' !! l).

Definition evolving (L : loc -> Prop) {A} (m : R A) : Prop :=
  forall w a w', m w = Ret (a, w') -> evolves L w w'.

(** The worlds a client gets into: from the one it is made in, by [Go],
    turns of the loop of [receive], [Close], [IsAvailable] and
    [terminateCalls]. *)
Inductive reachable : World -> Prop :=
| reach_new c o cs chs : reachable (new_world c o cs chs)
| reach_Go w sm args reply d call w' :
    reachable w -> Go sm args reply d w = Ret (call, w') -> reachable w'
| reach_turn w r w' :
    reachable w -> receive_turn w = Ret (r, w') -> reachable w'
| reach_Close w e w' :
    reachable w -> Close w = Ret (e, w') -> reachable w'
| reach_IsAvailable w b w' :
    reachable w -> IsAvailable w = Ret (b, w') -> reachable w'
| reach_terminate w err a w' :
    reachable w -> terminateCalls err w = Ret (a, w') -> reachable w'.

End Client.
End client_go.

(** ** main.go: the demonstration program, and worlds to run the client in *)

Module demo.
Import reflect service_go server_go client_go.

(** [type Args struct{ Num1, Num2 float32 }] and [type Foo struct{}] *)
Definition Args_t : Type_ :=
  Named "main" "Args" (StructT [("Num1", BasicT BFloat32); ("Num2", BasicT BFloat32)]).
Definition Foo_t : Type_ := Named "main" "Foo" (StructT []).

(** [func (f Foo) Sum(args Args, reply *float32) error] and
    [func (f Foo) Uppercase(str string, reply *string) error] *)
Definition Sum_decl : MethodDecl :=
  {| m_name := "Sum"; m_ptr_recv := false;
     m_ins := [Args_t; PtrT (BasicT BFloat32)]; m_outs := [ErrorT] |}.
Definition Uppercase_decl : MethodDecl :=
  {| m_name := "Uppercase"; m_ptr_recv := false;
     m_ins := [BasicT BString; PtrT (BasicT BString)]; m_outs := [ErrorT] |}.

Definition main_decls (pkg name : string) : list MethodDecl :=
  if bool_decide (pkg = "main" /\ name = "Foo") then [Sum_decl; Uppercase_decl] else [].

(** [var foo Foo] at an address, and [&foo] as an [interface{}]. *)
Definition foo_addr : loc := 1%positive.
Definition main_heap : Heap := {[ foo_addr := zero Foo_t ]}.
Definition foo_ptr : iface := Some (PtrT Foo_t, VPtr (Some foo_addr)).

(** A receiver type that is not in the program: one method whose reply
    is an [int], one whose argument is a pointer, and a method whose
    reply points to a type that is not exported. *)
Definition hidden_t : Type_ := Named "main" "hidden" (StructT []).
Definition Bar_t : Type_ := Named "main" "Bar" (StructT []).
Definition Bad_decl : MethodDecl :=
  {| m_name := "Bad"; m_ptr_recv := false;
     m_ins := [BasicT BInt; BasicT BInt]; m_outs := [ErrorT] |}.
Definition Len_decl : MethodDecl :=
  {| m_name := "Len"; m_ptr_recv := false;
     m_ins := [PtrT (BasicT BString); PtrT (BasicT BInt)]; m_outs := [ErrorT] |}.
Definition Hide_decl : MethodDecl :=
  {| m_name := "Hide"; m_ptr_recv := false;
     m_ins := [BasicT BInt; PtrT hidden_t]; m_outs := [ErrorT] |}.
Definition bar_decls (pkg name : string) : list MethodDecl :=
  if bool_decide (pkg = "main" /\ name = "Bar") then [Bad_decl; Len_decl; Hide_decl] else [].
Definition bar_addr : loc := 1%positive.
Definition bar_heap : Heap := {[ bar_addr := zero Bar_t ]}.
Definition bar_ptr : iface := Some (PtrT Bar_t, VPtr (Some bar_addr)).

(** The descriptor [registerMethods] builds for [Len], whose argument
    type is [*string]. *)
Definition Len_method : methodType :=
  {| method := {| Method_Name := "Len";
                  Method_Type := FuncT [PtrT Bar_t; PtrT (BasicT BString);
                                        PtrT (BasicT BInt)] [ErrorT] |};
     ArgType := PtrT (BasicT BString); ReplyType := PtrT (BasicT BInt) |}.

(** A gob codec on a connection, bodies being strings that all encode. *)
Definition wire0 : codec.Wire (Body := string) :=
  {| codec.wire := []; codec.buffered := []; codec.closed := false;
     codec.peer_gone := false |}.
Definition wire_gone : codec.Wire (Body := string) :=
  {| codec.wire := []; codec.buffered := []; codec.closed := false;
     codec.peer_gone := true |}.
Definition gob0 : codec.GobCodec codec.Wire string :=
  {| codec.world := wire0; codec.events := [] |}.
Definition gob_gone : codec.GobCodec codec.Wire string :=
  {| codec.world := wire_gone; codec.events := [] |}.

Definition all_encodable (_ : string) : bool := true.

#[global] Instance demo_codec : codec.Codec (codec.GobCodec codec.Wire string) string :=
  codec.GobCodec_Codec (codec.wire_lib all_encodable).

Definition demo_Errorf (s : string) : error := errors_New s.

(** A server with one service, ["A.B"], that has one method, ["C"]. *)
Definition C_method : methodType :=
  {| method := {| Method_Name := "C";
                  Method_Type := FuncT [Foo_t; BasicT BInt; PtrT (BasicT BInt)] [ErrorT] |};
     ArgType := BasicT BInt; ReplyType := PtrT (BasicT BInt) |}.
Definition AB_service : service :=
  {| name := "A.B"; typ := Foo_t; rcvr := Val Foo_t (VStruct []) None;
     method_map := {[ "C" := C_method ]} |}.
Definition AB_server : Server := {| serviceMap := {[ "A.B" := AB_service ]} |}.

(** An [Option] a caller filled with a magic number of its own and no
    codec type, at an address, next to the one [DefaultOption] points to. *)
Definition caller_opt : loc := 2%positive.
Definition caller_options : OptStore :=
  <[caller_opt := {| Option_MagicNumber := 7; Option_CodecType := "" |}]> init_options.

(** Worlds of a client on that codec: just made; with two calls
    pending after two [Go]s, each on a channel of its own; and with one
    channel that has no buffer. *)
Definition world0 : World (C := codec.GobCodec codec.Wire string) (Body := string) :=
  new_world gob0 None ∅ ∅.

Definition call1 : Call (Body := string) :=
  {| Call_Seq := 1; Call_ServiceMethod := "Foo.Sum"; Args := "1"; Reply := Some None;
     Call_Error := None; Done := 1%positive |}.
Definition call2 : Call (Body := string) :=
  {| Call_Seq := 2; Call_ServiceMethod := "Foo.Uppercase"; Args := "a";
     Reply := Some None; Call_Error := None; Done := 2%positive |}.
(** The world after a [Go] with a nil [done]. *)
Definition after_Go (serviceMethod args : string)
    (w : World (C := codec.GobCodec codec.Wire string) (Body := string))
  : World (C := codec.GobCodec codec.Wire string) (Body := string) :=
  match Go serviceMethod args (Some None) None w with
  | Ret (_, w') => w'
  | _ => w
  end.
(** The world after [receive] has met the end of the stream on a client
    that was just made. *)
Definition world_shutdown
  : World (C := codec.GobCodec codec.Wire string) (Body := string) :=
  match receive demo_Errorf 1 world0 with
  | Ret (_, w) => w
  | _ => world0
  end.
(** A client that is just made, with the two [Call]s allocated, and a
    lifetime of it: two registrations around a write, a removal and a
    close, and a registration that comes too late. *)
Definition world_two_calls
  : World (C := codec.GobCodec codec.Wire string) (Body := string) :=
  new_world gob0 None (<[1%positive := call1]> (<[2%positive := call2]> ∅)) ∅.
Definition short_life : list (step (Body := string)) :=
  [SLock sending; SRegister 1%positive;
   SWrite {| codec.ServiceMethod := "Foo.Sum"; codec.Seq := 1; codec.Error := "" |} "1";
   SUnlock sending; SRegister 2%positive; SRemove 1; SClose; SRegister 1%positive].
(** A lifetime of [2^64] registrations. *)
Definition long_life : list (step (Body := string)) :=
  replicate (N.to_nat (2 ^ 64)) (SRegister 1%positive).
Definition unbuffered : chan := 1%positive.
Definition world_unbuffered
  : World (C := codec.GobCodec codec.Wire string) (Body := string) :=
  new_world gob0 None ∅ {[ unbuffered := 0%nat ]}.

(** A request header. *)
Definition sum_header : codec.Header :=
  {| codec.ServiceMethod := "Foo.Sum"; codec.Seq := 1; codec.Error := "" |}.

End demo.

(** ** The servers a program gets *)

Module server_life.
Import reflect service_go server_go.

Section Built.
Variable decls : string -> string -> list MethodDecl.

(** A server is made by [NewServer]; its service map changes in
    [Register] and nowhere else. *)
Inductive built : Server -> Prop :=
| built_NewServer : built NewServer
| built_Register server rcvr h e server' :
    built server -> Register decls rcvr h server = Ret (e, server') -> built server'.
End Built.

End server_life.

(** ** client.go: the request header, and [Call] *)

Module client_calls.
Import codec server_go client_go.

Section Calls.
Context {C Body : Type} `{!Codec C Body}.

(** The header [send] has in [client.header] when it calls [Write]:
    the call's [ServiceMethod], the sequence number [registerCall]
    returned, and an empty [Error]. *)
Definition request_header (c : Call (Body := Body)) (s : Z) : Header :=
  {| ServiceMethod := Call_ServiceMethod c; Seq := s; Error := "" |}.

(** From one state of the client to another, a flag that is set is
    still set; and a computation that takes the client only to such
    states. *)
Definition raises (cl cl' : Client (C := C)) : Prop :=
  (closing cl = true -> closing cl' = true) /\
  (shutdown cl = true -> shutdown cl' = true).
Definition raising {A} (m : G (World (C := C) (Body := Body)) A) : Prop :=
  forall w a w', m w = Ret (a, w') -> raises (client w) (client w').

End Calls.
End client_calls.

(** ** A peer that follows a script *)

(** A codec for running the client against a peer whose frames are given
    in advance: [ReadHeader] takes the next frame's header, [ReadBody] its
    body; [Write] records the frame, or fails when the connection is
    marked broken. *)
Module script.
Import codec.

Record Script := mkScript {
  incoming : list (Header * string);
  body_next : option string;
  outgoing : list (Header * string);
  broken : bool;
  shut : bool;
}.

Definition Script_ReadHeader (s : Script) : (error + Header) * Script :=
  match incoming s with
  | [] => (inl (errors_New "EOF"), s)
  | (h, b) :: rest =>
      (inr h, {| incoming := rest; body_next := Some b; outgoing := outgoing s;
                 broken := broken s; shut := shut s |})
  end.

Definition Script_ReadBody (slot : bool) (s : Script)
  : (option error * option string) * Script :=
  match body_next s with
  | None => ((Some (errors_New "EOF"), None), s)
  | Some b =>
      ((None, if slot then Some b else None),
       {| incoming := incoming s; body_next := None; outgoing := outgoing s;
          broken := broken s; shut := shut s |})
  end.

Definition Script_Write (h : Header) (b : string) (s : Script) : option error * Script :=
  if broken s then (Some (errors_New "write: broken pipe"), s)
  else (None, {| incoming := incoming s; body_next := body_next s;
                 outgoing := outgoing s ++ [(h, b)];
                 broken := broken s; shut := shut s |}).

Definition Script_Close (s : Script) : option error * Script :=
  (None, {| incoming := incoming s; body_next := body_next s; outgoing := outgoing s;
            broken := broken s; shut := true |}).

#[global] Instance Script_Codec : Codec Script string := {|
  Close := Script_Close;
  ReadHeader := Script_ReadHeader;
  ReadBody := Script_ReadBody;
  Write := Script_Write;
|}.

Import client_go.

(** A peer that answers call 1 with ["15.36"], then reports an error for
    call 2, then answers a call 9 nobody made. *)
Definition answers : list (Header * string) :=
  [({| ServiceMethod := "Foo.Sum"; Seq := 1; Error := "" |}, "15.36");
   ({| ServiceMethod := "Foo.Uppercase"; Seq := 2; Error := "no such luck" |}, "");
   ({| ServiceMethod := "Foo.Sum"; Seq := 9; Error := "" |}, "0")].

Definition peer (frames : list (Header * string)) (is_broken : bool) : Script :=
  {| incoming := frames; body_next := None; outgoing := []; broken := is_broken;
     shut := false |}.

Abbreviation SWorld := (World (C := Script) (Body := string)).

(** The client on that peer: just made; after one [Go]; after two. *)
Definition fresh_client : SWorld := new_world (peer answers false) None ∅ ∅.
Definition after_Go (serviceMethod args : string) (w : SWorld) : SWorld :=
  match Go serviceMethod args (Some None) None w with
  | Ret (_, w') => w'
  | _ => w
  end.
Definition one_sent : SWorld := after_Go "Foo.Sum" "10.24+5.12" fresh_client.
Definition two_sent : SWorld := after_Go "Foo.Uppercase" "hello" one_sent.
(** The two calls as they are once sent. *)
Definition sum_call : Call (Body := string) :=
  {| Call_Seq := 1; Call_ServiceMethod := "Foo.Sum"; Args := "10.24+5.12";
     Reply := Some None; Call_Error := None; Done := 1%positive |}.
Definition upper_call : Call (Body := string) :=
  {| Call_Seq := 2; Call_ServiceMethod := "Foo.Uppercase"; Args := "hello";
     Reply := Some None; Call_Error := None; Done := 2%positive |}.
(** The world after [n] turns of the loop of [receive]. *)
Fixpoint turns (n : nat) (w : SWorld) : SWorld :=
  match n with
  | O => w
  | S n' =>
      match receive_turn errors_New w with
      | Ret (_, w') => turns n' w'
      | _ => w
      end
  end.

(** A [Call] that has been allocated and not sent yet. *)
Definition a_call : Call (Body := string) :=
  {| Call_Seq := 0; Call_ServiceMethod := "Foo.Sum"; Args := "1+2"; Reply := Some None;
     Call_Error := None; Done := 1%positive |}.
(** A client with that call allocated: on a working connection, on a
    broken one, and after [Close]. *)
Definition with_call (is_broken : bool) : SWorld :=
  new_world (peer [] is_broken) None {[ 1%positive := a_call ]} {[ 1%positive := 10%nat ]}.
Definition closed_with_call : SWorld :=
  match Close (with_call false) with
  | Ret (_, w) => w
  | _ => with_call false
  end.

End script.

(** ** The server of main.go *)

Module demo_server.
Import reflect service_go server_go demo.

(** The service [newService] makes of [&foo], and the server of
    [startServer] once [Register(&foo)] has returned. *)
Definition foo_service : service :=
  registerMethods main_decls
    {| name := "Foo"; typ := PtrT Foo_t; rcvr := ValueOf foo_ptr; method_map := ∅ |}.
Definition foo_server : Server :=
  match Register main_decls foo_ptr main_heap NewServer with
  | Ret (_, server) => server
  | _ => NewServer
  end.
(** The descriptors of its two methods. *)
Definition Sum_method : methodType :=
  {| method := {| Method_Name := "Sum";
                  Method_Type := FuncT [PtrT Foo_t; Args_t; PtrT (BasicT BFloat32)]
                                       [ErrorT] |};
     ArgType := Args_t; ReplyType := PtrT (BasicT BFloat32) |}.
Definition Uppercase_method : methodType :=
  {| method := {| Method_Name := "Uppercase";
                  Method_Type := FuncT [PtrT Foo_t; BasicT BString; PtrT (BasicT BString)]
                                       [ErrorT] |};
     ArgType := BasicT BString; ReplyType := PtrT (BasicT BString) |}.


End demo_server.

(** * Properties *)

(** ** The definitions at work on main.go *)

Example LastIndex_A_B_C : strings_LastIndex "A.B.C" "." = 3.
Proof. reflexivity. Qed.

Example LastIndex_NoDot : strings_LastIndex "NoDot" "." = -1.
Proof. reflexivity. Qed.

Example IsExported_Foo : ast_IsExported "Foo" = true /\ ast_IsExported "foo" = false.
Proof. split; reflexivity. Qed.

Example float32_pointer_is_builtin :
  service_go.isExportedOrBuiltinType (reflect.PtrT (reflect.BasicT reflect.BFloat32)) = true /\
  service_go.isExportedOrBuiltinType demo.Args_t = true /\
  service_go.isExportedOrBuiltinType demo.hidden_t = false.
Proof. repeat split; reflexivity. Qed.

Example zero_Args :
  reflect.zero demo.Args_t = reflect.VStruct [reflect.VFloat 0; reflect.VFloat 0].
Proof. reflexivity. Qed.

(** [Register(&foo)] records [Sum] and [Uppercase] under ["Foo"]. *)
Example Register_foo_methods :
  exists s,
    service_go.newService demo.main_decls demo.foo_ptr demo.main_heap = Ret s /\
    service_go.name s = "Foo" /\
    (map_to_list (service_go.method_map s)).*1 ≡ₚ ["Sum"; "Uppercase"].
Proof.
  eexists. split; [reflexivity|]. split; [reflexivity|].
  vm_compute. first [reflexivity | apply Permutation_swap].
Qed.

(** [newArgv] for [Sum], whose argument is an [Args]: a zero [Args]. *)
Example newArgv_Sum :
  fst (service_go.newArgv
         {| service_go.method :=
              {| reflect.Method_Name := "Sum";
                 reflect.Method_Type :=
                   reflect.FuncT [reflect.PtrT demo.Foo_t; demo.Args_t;
                                  reflect.PtrT (reflect.BasicT reflect.BFloat32)]
                                 [reflect.ErrorT] |};
            service_go.ArgType := demo.Args_t;
            service_go.ReplyType := reflect.PtrT (reflect.BasicT reflect.BFloat32) |}
         demo.main_heap)
  = Ret (reflect.Val demo.Args_t (reflect.VStruct [reflect.VFloat 0; reflect.VFloat 0])
           (Some 2%positive)).
Proof. vm_compute. reflexivity. Qed.

(** ** The gob codec's [Write] *)

Section GobWrite.
Import codec.
Context {W Body : Type}.
Variable lib : GobLib W Body.

(** [Write] in closed form: its result is what the encoder returned, and
    its state the one after the flush and, on an error, the close. *)
Lemma GobCodec_Write_unfold (h : Header) (body : Body) (c : GobCodec W Body) :
  GobCodec_Write lib h body c =
  let err := encode_error lib h body (world c) in
  let w1 := snd (buf_Flush lib (world_at_flush lib h body (world c))) in
  (err,
   {| world := if is_err err then snd (conn_Close lib w1) else w1;
      events := events c ++ encode_events lib h body (world c) ++
                EvFlush :: (if is_err err then [EvClose] else []) |}).
Proof.
  unfold GobCodec_Write, Write_body, Write_deferred, GobCodec_Close, call, bind, ret,
    encode_error, world_at_flush, encode_events.
  destruct c as [w evs]; cbn.
  destruct (enc_Encode lib (inl h) w) as [[e1|] w1]; cbn.
  - destruct (buf_Flush lib w1) as [fe w2]; cbn.
    destruct (conn_Close lib w2) as [ce w3]; cbn.
    by rewrite <- !app_assoc.
  - destruct (enc_Encode lib (inr body) w1) as [[e2|] w2]; cbn.
    + destruct (buf_Flush lib w2) as [fe w3]; cbn.
      destruct (conn_Close lib w3) as [ce w4]; cbn.
      by rewrite <- !app_assoc.
    + destruct (buf_Flush lib w2) as [fe w3]; cbn.
      by rewrite <- !app_assoc.
Qed.

(** C6, as the code has it. Every [Write] flushes the buffered writer
    after its encodes and before it returns; it fails exactly when
    encoding the header or the body returned an error, with that error
    (what the flush returns is dropped); and in exactly that case it
    closes the codec, right after the flush. *)
Theorem GobCodec_Write_flushes_then_closes_on_encode_error
    (h : Header) (body : Body) (c : GobCodec W Body) :
  let r := GobCodec_Write lib h body c in
  let err := fst r in
  let flushed := snd (buf_Flush lib (world_at_flush lib h body (world c))) in
  err = encode_error lib h body (world c) /\
  events (snd r) =
    (events c ++ encode_events lib h body (world c) ++
     EvFlush :: (if is_err err then [EvClose] else []))%list /\
  world (snd r) = if is_err err then snd (conn_Close lib flushed) else flushed.
Proof.
  cbv zeta. rewrite GobCodec_Write_unfold. by cbn.
Qed.
End GobWrite.

(** C6 as stated fails: on a connection whose peer is gone, a frame that
    fits the buffer is encoded without error, the flush fails, and [Write]
    returns nil. *)
Lemma GobCodec_Write_swallows_flush_error :
  ~ codec.Write_fails_iff_any_error (codec.wire_lib demo.all_encodable)
      demo.sum_header "YARPC req 1" demo.gob_gone.
Proof.
  unfold codec.Write_fails_iff_any_error. vm_compute. intros [_ H].
  discriminate H. by right.
Qed.

(** ** [strings.LastIndex] and [findService] *)

Section FindService.
Import server_go service_go.
Local Arguments String.append !_ _ / : simpl nomatch.

Lemma prefix_dot (s : string) :
  String.prefix "." s = match s with
                        | String c _ => Ascii.eqb c "."
                        | EmptyString => false
                        end.
Proof.
  destruct s as [|c s]; [done|]. cbn [String.prefix].
  destruct (ascii_dec "." c) as [<-|Hne].
  - by destruct s.
  - symmetry. apply Ascii.eqb_neq. congruence.
Qed.

(** Without a ['.'] the scan keeps what it started with. *)
Lemma last_from_dotless (s : string) (i acc : Z) :
  dotless s = true -> last_from "." s i acc = acc.
Proof.
  revert i acc. induction s as [|c s IH]; intros i acc Hs; [done|].
  cbn [last_from]. rewrite prefix_dot. cbn in Hs.
  apply andb_true_iff in Hs as [Hc Hs]. apply negb_true_iff in Hc.
  rewrite Hc. by apply IH.
Qed.

(** The scan stops at the ['.'] that only a dotless rest follows. *)
Lemma last_from_last_dot (a b : string) (i acc : Z) :
  dotless b = true ->
  last_from "." (a ++ "." ++ b) i acc = i + Z.of_nat (String.length a).
Proof.
  intros Hb. revert i acc. induction a as [|c a IH]; intros i acc.
  - cbn [String.append last_from String.length]. rewrite prefix_dot.
    change (Ascii.eqb "." ".") with true. cbv iota.
    rewrite last_from_dotless by done. lia.
  - cbn [String.append last_from]. rewrite IH. cbn [String.length]. lia.
Qed.

Lemma strings_LastIndex_dotless (s : string) :
  dotless s = true -> strings_LastIndex s "." = -1.
Proof. apply last_from_dotless. Qed.

Lemma strings_LastIndex_last_dot (a b : string) :
  dotless b = true -> strings_LastIndex (a ++ "." ++ b) "." = Z.of_nat (String.length a).
Proof. intros Hb. unfold strings_LastIndex. by rewrite last_from_last_dot. Qed.

Lemma substring_all (s : string) : String.substring 0 (String.length s) s = s.
Proof. induction s as [|c s IH]; [done|]. cbn. by rewrite IH. Qed.

Lemma substring_prefix (a b : string) :
  String.substring 0 (String.length a) (a ++ b) = a.
Proof.
  induction a as [|c a IH]; cbn.
  - by destruct b.
  - by rewrite IH.
Qed.

Lemma substring_suffix (a b : string) :
  String.substring (String.length a) (String.length b) (a ++ b) = b.
Proof. induction a as [|c a IH]; cbn; [apply substring_all | done]. Qed.

Lemma length_append (a b : string) :
  String.length (a ++ b) = (String.length a + String.length b)%nat.
Proof. induction a as [|c a IH]; cbn; [done | by rewrite IH]. Qed.

Lemma slice_to_dot (a b : string) :
  slice_to (a ++ "." ++ b) (Z.of_nat (String.length a)) = a.
Proof. unfold slice_to. rewrite Nat2Z.id. apply substring_prefix. Qed.

Lemma slice_from_dot (a b : string) :
  slice_from (a ++ "." ++ b) (Z.of_nat (String.length a) + 1) = b.
Proof.
  unfold slice_from.
  replace (Z.to_nat (Z.of_nat (String.length a) + 1))
    with (String.length (a ++ ".")) by (rewrite length_append; cbn; lia).
  replace (a ++ "." ++ b) with ((a ++ ".") ++ b).
  2:{ clear. induction a as [|c a IH]; cbn; [done | by rewrite IH]. }
  rewrite (length_append (a ++ ".") b).
  replace (String.length (a ++ ".") + String.length b - String.length (a ++ "."))%nat
    with (String.length b) by lia.
  apply substring_suffix.
Qed.

(** [findService] on a string that ends in a ['.'] and a dotless [b]:
    the service is what comes before that ['.'], the method is [b]. *)
Lemma findService_dotted (server : Server) (a b : string) :
  dotless b = true ->
  findService server (a ++ "." ++ b) =
    match serviceMap server !! a with
    | None => (None, None, Some (errors_New ("rpc server:can't find service " ++ a)))
    | Some svc =>
        match method_map svc !! b with
        | None => (Some svc, None, Some (errors_New ("rpc server: can't find method " ++ b)))
        | Some mtype => (Some svc, Some mtype, None)
        end
    end.
Proof.
  intros Hb. unfold findService.
  rewrite strings_LastIndex_last_dot by done.
  destruct (Z.ltb_spec (Z.of_nat (String.length a)) 0) as [Hlt|_]; [lia|].
  by rewrite slice_to_dot, slice_from_dot.
Qed.

(** C4. [findService] splits at the last ['.']: for a method part [b]
    without a ['.'], ["a.b"] is looked up as service [a] and method [b],
    whatever dots [a] holds; and a string without any ['.'] gets the
    ill-formed error from every server, whatever its service map holds. *)
Theorem findService_splits_at_last_dot (server : Server) (a b : string)
    (Hb : dotless b = true) :
  findService server (a ++ "." ++ b) =
    match serviceMap server !! a with
    | None => (None, None, Some (errors_New ("rpc server:can't find service " ++ a)))
    | Some svc =>
        match method_map svc !! b with
        | None => (Some svc, None, Some (errors_New ("rpc server: can't find method " ++ b)))
        | Some mtype => (Some svc, Some mtype, None)
        end
    end /\
  findService server b =
    (None, None, Some (errors_New ("rpc server: service/method request ill-formed: " ++ b))).
Proof.
  split; [by apply findService_dotted|].
  unfold findService. by rewrite strings_LastIndex_dotless.
Qed.
End FindService.

(** ["A.B.C"] is service ["A.B"], method ["C"]; ["C"] alone is ill-formed. *)
Lemma findService_A_B_C :
  dotless "C" = true /\
  server_go.findService demo.AB_server "A.B.C" =
    (Some demo.AB_service, Some demo.C_method, None) /\
  server_go.findService demo.AB_server "C" =
    (None, None,
     Some (errors_New "rpc server: service/method request ill-formed: C")).
Proof.
  split; [reflexivity|].
  exact (findService_splits_at_last_dot demo.AB_server "A.B" "C" eq_refl).
Defined.

(** ** The method registry *)

Section Registry.
Import reflect service_go server_go.
Variable decls : string -> string -> list MethodDecl.

Lemma registerMethod_eligible (acc : gmap string methodType) (m : Method) :
  registerMethod acc m =
    match eligible m with
    | Some mt => <[Method_Name m := mt]> acc
    | None => acc
    end.
Proof.
  unfold registerMethod, eligible.
  destruct (NumIn (Method_Type m) =? 3)%nat; [|done].
  destruct (NumOut (Method_Type m) =? 1)%nat; [|done].
  destruct (is_error_type (Out (Method_Type m) 0)); [|done].
  destruct (isExportedOrBuiltinType (In_ (Method_Type m) 1)); [|done].
  by destruct (isExportedOrBuiltinType (In_ (Method_Type m) 2)).
Qed.

(** Methods of other names leave an entry alone. *)
Lemma fold_registerMethod_other (ms : list Method) (acc : gmap string methodType)
    (n : string) :
  n ∉ Method_Name <$> ms ->
  fold_left registerMethod ms acc !! n = acc !! n.
Proof.
  revert acc. induction ms as [|m ms IH]; intros acc Hn; [done|].
  cbn [fold_left]. rewrite fmap_cons in Hn. apply not_elem_of_cons in Hn as [Hne Hn].
  rewrite IH by done. rewrite registerMethod_eligible.
  destruct (eligible m); [|done]. by rewrite lookup_insert_ne.
Qed.

(** With distinct names, the loop stores the descriptor of every
    eligible method under the method's name. *)
Lemma fold_registerMethod_stores (ms : list Method) (acc : gmap string methodType)
    (m : Method) (mt : methodType) :
  NoDup (Method_Name <$> ms) -> m ∈ ms -> eligible m = Some mt ->
  fold_left registerMethod ms acc !! Method_Name m = Some mt.
Proof.
  revert acc. induction ms as [|m0 ms IH]; intros acc Hnd Hin Hel.
  - by apply elem_of_nil in Hin.
  - rewrite fmap_cons in Hnd. apply NoDup_cons in Hnd as [Hfresh Hnd].
    cbn [fold_left]. apply elem_of_cons in Hin as [->|Hin].
    + rewrite fold_registerMethod_other by done.
      rewrite registerMethod_eligible, Hel. apply lookup_insert_eq.
    + by apply IH.
Qed.

(** Whatever the loop stores is the descriptor of an eligible method. *)
Lemma fold_registerMethod_sound (ms : list Method) (acc : gmap string methodType)
    (n : string) (mt : methodType) :
  fold_left registerMethod ms acc !! n = Some mt ->
  acc !! n = Some mt \/ exists m, m ∈ ms /\ Method_Name m = n /\ eligible m = Some mt.
Proof.
  revert acc. induction ms as [|m ms IH]; intros acc H; [by left|].
  cbn [fold_left] in H. apply IH in H as [H|(m' & Hin & Hn & Hel)].
  - rewrite registerMethod_eligible in H. destruct (eligible m) as [mt'|] eqn:Hel.
    + destruct (decide (Method_Name m = n)) as [<-|Hne].
      * rewrite lookup_insert_eq in H. injection H as <-.
        right. exists m. split; [apply list_elem_of_here | done].
      * rewrite lookup_insert_ne in H by done. by left.
    + by left.
  - right. exists m'. split; [by apply list_elem_of_further | done].
Qed.

(** The value [newArgv] returns, for every argument type: the zero
    value of that type, living at a fresh address. *)
Lemma newArgv_zero (m : methodType) (h : Heap) :
  newArgv m h =
    (Ret (Val (ArgType m) (zero (ArgType m)) (Some (fresh (dom h)))),
     <[fresh (dom h) := zero (ArgType m)]> h).
Proof.
  unfold newArgv, New, bind, Value_Elem.
  destruct (decide (Kind_of (ArgType m) = Ptr)); cbn; by rewrite lookup_insert_eq.
Qed.

(** The zero value of a type of kind [Ptr] is the nil pointer. *)
Lemma zero_Ptr (t : Type_) : Kind_of t = Ptr -> zero t = VPtr None.
Proof.
  induction t as [b| | | | | | | | |]; cbn; try done.
  by destruct b.
Qed.
End Registry.

(** C1. [registerMethods] does not look at the kind of the reply type:
    registering a [*Bar] whose method [Bad(int, int) error] replies into an
    [int] records [Bad], with reply type [int]; and [Hide], whose reply
    points to the unexported type [hidden], is recorded as well, a pointer
    type having neither a name nor a package path. *)
Theorem registerMethods_registers_non_pointer_reply :
  exists s bad hide,
    service_go.newService demo.bar_decls demo.bar_ptr demo.bar_heap = Ret s /\
    service_go.name s = "Bar" /\
    service_go.method_map s !! "Bad" = Some bad /\
    service_go.ReplyType bad = reflect.BasicT reflect.BInt /\
    reflect.Kind_of (service_go.ReplyType bad) <> reflect.Ptr /\
    service_go.method_map s !! "Hide" = Some hide /\
    service_go.ReplyType hide = reflect.PtrT demo.hidden_t /\
    ast_IsExported (reflect.Name demo.hidden_t) = false /\
    reflect.PkgPath demo.hidden_t <> "".
Proof.
  eexists _, _, _. split; [reflexivity|].
  split; [reflexivity|].
  split; [vm_compute; reflexivity|].
  split; [reflexivity|].
  split; [discriminate|].
  split; [vm_compute; reflexivity|].
  split; [reflexivity|].
  split; [reflexivity|discriminate].
Qed.

(** C2. For an argument type that is a pointer, [newArgv] returns the
    nil pointer of that type, not a pointer to a new instance: [Len], as
    registered for a [*Bar], takes a [*string], and the Value made for it
    is of kind [Ptr] and nil, on every heap. *)
Theorem newArgv_pointer_argument_is_nil (h : reflect.Heap) :
  (exists s, service_go.newService demo.bar_decls demo.bar_ptr demo.bar_heap = Ret s /\
             service_go.method_map s !! "Len" = Some demo.Len_method) /\
  reflect.Kind_of (service_go.ArgType demo.Len_method) = reflect.Ptr /\
  exists v, fst (service_go.newArgv demo.Len_method h) = Ret v /\
            reflect.Value_Type v = Ret (reflect.PtrT (reflect.BasicT reflect.BString)) /\
            reflect.IsNil v = true.
Proof.
  split; [|split; [reflexivity|]].
  - eexists. split; [reflexivity|]. vm_compute. reflexivity.
  - rewrite newArgv_zero. eexists. split; [reflexivity|]. by split.
Qed.

Section PointerReceiver.
Import reflect service_go server_go.
Variable decls : string -> string -> list MethodDecl.

(** C10. Registering a pointer to a value of the struct type [name]
    records the service under [name], the name of the type pointed to
    (the pointer type itself has no name), with the pointer type as
    [typ]; a method [name] declares with a value receiver and an eligible
    signature is found by [findService] as ["name.Method"], its type
    taking the pointer as receiver. *)
Theorem Register_pointer_exposes_value_methods
    (h : Heap) (l : loc) (d : Data) (pkg name : string)
    (fields : list (string * Type_)) (server : Server)
    (m : MethodDecl) (a r : Type_)
    (Hname : ast_IsExported name = true)
    (Hl : h !! l = Some d)
    (Hdistinct : NoDup (m_name <$> decls pkg name))
    (Hnew : serviceMap server !! name = None)
    (Hm : m ∈ decls pkg name)
    (Hrecv : m_ptr_recv m = false)
    (Hexported : ast_IsExported (m_name m) = true)
    (Hident : dotless (m_name m) = true)
    (Hins : m_ins m = [a; r])
    (Houts : m_outs m = [ErrorT])
    (Ha : isExportedOrBuiltinType a = true)
    (Hr : isExportedOrBuiltinType r = true) :
  let T := Named pkg name (StructT fields) in
  exists s server',
    Register decls (Some (PtrT T, VPtr (Some l))) h server = Ret (None, server') /\
    service_go.name s = name /\
    Name (PtrT T) = "" /\
    typ s = PtrT T /\
    m ∈ method_set decls (PtrT T) /\
    findService server' (name ++ "." ++ m_name m) =
      (Some s,
       Some {| method := {| Method_Name := m_name m;
                            Method_Type := FuncT [PtrT T; a; r] [ErrorT] |};
               ArgType := a; ReplyType := r |},
       None).
Proof.
  intros T.
  assert (Hset : m ∈ method_set decls (PtrT T)).
  { unfold method_set, T. apply list_elem_of_filter. by split. }
  unfold Register, newService, Indirect. cbn -[registerMethods].
  rewrite Hl. cbn -[registerMethods].
  destruct (decide (Ptr = Ptr)) as [_|]; [|done]. cbn -[registerMethods].
  rewrite Hname. cbn -[registerMethods].
  set (s0 := registerMethods decls _).
  change (service_go.name s0) with name. rewrite Hnew.
  exists s0, {| serviceMap := <[name := s0]> (serviceMap server) |}.
  split; [reflexivity|].
  split; [reflexivity|]. split; [reflexivity|]. split; [reflexivity|].
  split; [done|].
  rewrite (findService_dotted {| serviceMap := <[name := s0]> (serviceMap server) |}
             name (m_name m) Hident).
  cbn [serviceMap]. rewrite lookup_insert_eq.
  subst s0. cbn [registerMethods method_map typ].
  set (mth := {| Method_Name := m_name m;
                 Method_Type := FuncT (PtrT T :: m_ins m) (m_outs m) |}).
  assert (Hel : eligible mth =
                Some {| method := {| Method_Name := m_name m;
                                     Method_Type := FuncT [PtrT T; a; r] [ErrorT] |};
                        ArgType := a; ReplyType := r |}).
  { unfold eligible, mth. cbn. rewrite Hins, Houts. cbn. by rewrite Ha, Hr. }
  change (m_name m) with (Method_Name mth) at 1.
  erewrite fold_registerMethod_stores; [done| | |exact Hel].
  - unfold Methods. rewrite <- list_fmap_compose.
    apply (sublist_NoDup _ (m_name <$> decls pkg name)); [done|].
    apply fmap_sublist. apply sublist_filter.
  - unfold Methods. apply list_elem_of_fmap. by exists m.
Qed.
End PointerReceiver.

(** [Register(&foo)] of main.go: service ["Foo"], and ["Foo.Sum"] found. *)
Lemma Register_foo_exposes_Sum :
  exists s server',
    server_go.Register demo.main_decls demo.foo_ptr demo.main_heap server_go.NewServer
      = Ret (None, server') /\
    service_go.name s = "Foo" /\
    reflect.Name (reflect.PtrT demo.Foo_t) = "" /\
    service_go.typ s = reflect.PtrT demo.Foo_t /\
    demo.Sum_decl ∈ reflect.method_set demo.main_decls (reflect.PtrT demo.Foo_t) /\
    server_go.findService server' "Foo.Sum" =
      (Some s,
       Some {| service_go.method :=
                 {| reflect.Method_Name := "Sum";
                    reflect.Method_Type :=
                      reflect.FuncT [reflect.PtrT demo.Foo_t; demo.Args_t;
                                     reflect.PtrT (reflect.BasicT reflect.BFloat32)]
                                    [reflect.ErrorT] |};
               service_go.ArgType := demo.Args_t;
               service_go.ReplyType := reflect.PtrT (reflect.BasicT reflect.BFloat32) |},
       None).
Proof.
  refine (Register_pointer_exposes_value_methods demo.main_decls demo.main_heap
            demo.foo_addr (reflect.zero demo.Foo_t) "main" "Foo" [] server_go.NewServer
            demo.Sum_decl demo.Args_t (reflect.PtrT (reflect.BasicT reflect.BFloat32))
            eq_refl eq_refl _ eq_refl _ eq_refl eq_refl eq_refl eq_refl eq_refl
            eq_refl eq_refl).
  - apply (bool_decide_unpack _). vm_compute. exact I.
  - apply list_elem_of_here.
Defined.

(** ** [parseOptions] *)

Section ParseOptions.
Import codec server_go client_go.

(** C7, as the code has it. On every store [σ0]: no option, or a nil
    first option whatever follows it, yields [DefaultOption] and no error,
    the store untouched; more than one option with the first not nil is an
    error. On a store [σ] where [DefaultOption] points to the [Option] the
    package initialised, and for an allocated [opt]: [parseOptions(opt)]
    returns [opt] itself, overwritten with the magic number [0x3bef5c] and,
    if its codec type was empty, with ["application/gob"]; and
    [DefaultOption] keeps its fields. *)
Theorem parseOptions_overwrites_magic_number
    (σ0 σ : OptStore) (opt opt0 : loc) (o : Option) (more : list (option loc))
    (next : option loc)
    (Hdefault : σ !! DefaultOption = Some DefaultOption_init)
    (Hopt : σ !! opt = Some o) :
  let o' := {| Option_MagicNumber := 0x3bef5c;
               Option_CodecType := if bool_decide (Option_CodecType o = "")
                                   then "application/gob" else Option_CodecType o |} in
  parseOptions [Some opt] σ = Ret ((Some opt, None), <[opt := o']> σ) /\
  <[opt := o']> σ !! DefaultOption = Some DefaultOption_init /\
  parseOptions [] σ0 = Ret ((Some DefaultOption, None), σ0) /\
  parseOptions (None :: more) σ0 = Ret ((Some DefaultOption, None), σ0) /\
  parseOptions (Some opt0 :: next :: more) σ0 =
    Ret ((None, Some (errors_New "number of options is more than 1")), σ0).
Proof.
  intros o'.
  assert (Hrun : parseOptions [Some opt] σ = Ret ((Some opt, None), <[opt := o']> σ)).
  { unfold parseOptions, gbind, load, store, gret. cbn [length Nat.eqb negb].
    rewrite Hdefault, Hopt, lookup_insert_eq. cbn [set_MagicNumber Option_CodecType].
    subst o'. destruct (bool_decide (Option_CodecType o = "")) eqn:Hempty.
    - destruct (decide (opt = DefaultOption)) as [->|Hne].
      + rewrite Hdefault in Hopt. injection Hopt as <-.
        apply bool_decide_eq_true in Hempty. discriminate Hempty.
      + rewrite lookup_insert_ne, Hdefault, lookup_insert_eq, insert_insert_eq by done.
        done.
    - done. }
  split; [exact Hrun|]. split; [|done].
  destruct (decide (opt = DefaultOption)) as [->|Hne].
  - rewrite lookup_insert_eq. rewrite Hdefault in Hopt. injection Hopt as <-. done.
  - by rewrite lookup_insert_ne.
Qed.
End ParseOptions.

(** A caller's option with magic number 7 and no codec type comes back
    with [0x3bef5c] and ["application/gob"]. *)
Lemma parseOptions_caller_option :
  let o' := {| server_go.Option_MagicNumber := 0x3bef5c;
               server_go.Option_CodecType := "application/gob" |} in
  client_go.parseOptions [Some demo.caller_opt] demo.caller_options =
    Ret ((Some demo.caller_opt, None), <[demo.caller_opt := o']> demo.caller_options) /\
  <[demo.caller_opt := o']> demo.caller_options !! client_go.DefaultOption =
    Some client_go.DefaultOption_init /\
  client_go.parseOptions [] demo.caller_options =
    Ret ((Some client_go.DefaultOption, None), demo.caller_options) /\
  client_go.parseOptions [None] demo.caller_options =
    Ret ((Some client_go.DefaultOption, None), demo.caller_options) /\
  client_go.parseOptions [Some demo.caller_opt; None] demo.caller_options =
    Ret ((None, Some (errors_New "number of options is more than 1")), demo.caller_options).
Proof.
  exact (parseOptions_overwrites_magic_number demo.caller_options demo.caller_options
           demo.caller_opt demo.caller_opt
           {| server_go.Option_MagicNumber := 7; server_go.Option_CodecType := "" |}
           [] None eq_refl eq_refl).
Defined.

(** C7 as stated fails: two options, the first of them nil, are not an
    error; [DefaultOption] is returned. *)
Lemma parseOptions_two_options_no_error :
  length [None; Some demo.caller_opt] = 2%nat /\
  client_go.parseOptions [None; Some demo.caller_opt] demo.caller_options =
    Ret ((Some client_go.DefaultOption, None), demo.caller_options) /\
  ~ (exists e σ', client_go.parseOptions [None; Some demo.caller_opt] demo.caller_options =
                  Ret ((None, Some e), σ')).
Proof.
  split; [reflexivity|]. split; [reflexivity|].
  intros (e & σ' & H). discriminate H.
Qed.

(** ** The client *)

Section ClientProps.
Import codec client_go.
Context {C Body : Type} `{!Codec C Body}.
Variable fmt_Errorf : string -> error.

Implicit Types (w : World (C := C) (Body := Body)) (l : loc) (err : option error).
Implicit Types (cs : gmap loc (Call (Body := Body))).

(** Unfolding one bind of the panic monad. *)
Lemma gbind_Ret {S A B} (m : G S A) (k : A -> G S B) (s s' : S) (a : A) :
  m s = Ret (a, s') -> gbind m k s = k a s'.
Proof. unfold gbind. by intros ->. Qed.

(** A call on the codec returns what the codec returns and leaves the
    codec in the state the call made. *)
Lemma on_cc_eq {A} (f : C -> A * C) w :
  on_cc f w = Ret (fst (f (cc (client w))), with_client (set_cc (snd (f (cc (client w))))) w).
Proof. unfold on_cc. by destruct (f (cc (client w))). Qed.

Ltac step_rpc :=
  unfold emit, the_client, update, load_call, store_call, gret, gbind, gpanic;
  rewrite ?on_cc_eq;
  cbn [client calls chans trace with_client fst snd
       cc opt header seq pending closing shutdown
       set_cc set_header set_seq set_pending set_closing set_shutdown].

(** [Close] on a client that is already closing: the shutdown error, and
    nothing but the lock touched. *)
Lemma Close_closing w :
  closing (client w) = true ->
  Close w = Ret (Some ErrShutdown, logged [Lock mu; Unlock mu] w).
Proof.
  intros Hc. unfold Close. step_rpc. rewrite Hc. step_rpc.
  unfold logged. cbn. by rewrite <- app_assoc.
Qed.

(** [Close] on a client that is not closing yet, shut down or not:
    [closing] is set, the codec closed, and its result returned. *)
Lemma Close_not_closing w :
  closing (client w) = false ->
  Close w =
    Ret (fst (codec.Close (cc (client w))),
         logged [Lock mu; Unlock mu]
           (with_client (fun cl => set_cc (snd (codec.Close (cc cl))) (set_closing true cl)) w)).
Proof.
  intros Hc. unfold Close. step_rpc. rewrite Hc. step_rpc.
  unfold logged, with_client. cbn. by rewrite <- app_assoc.
Qed.

(** [registerCall] on a client that is closing or shut down. *)
Lemma registerCall_terminal w l :
  closing (client w) || shutdown (client w) = true ->
  registerCall l w = Ret ((0, Some ErrShutdown), logged [Lock mu; Unlock mu] w).
Proof.
  intros Hc. unfold registerCall. step_rpc. rewrite Hc. step_rpc.
  unfold logged. cbn. by rewrite <- app_assoc.
Qed.

(** [registerCall] on an open client, for a [Call] that exists: the call
    gets the counter's value, enters the table under it, and the counter
    moves on. *)
Lemma registerCall_open w l (c : Call) :
  closing (client w) || shutdown (client w) = false ->
  calls w !! l = Some c ->
  registerCall l w =
    Ret ((seq (client w), None),
         {| client := set_seq (uint64_incr (seq (client w)))
                        (set_pending (<[seq (client w) := l]> (pending (client w)))
                           (client w));
            calls := <[l := set_Call_Seq (seq (client w)) c]> (calls w);
            chans := chans w;
            trace := trace w ++ [Lock mu; Unlock mu] |}).
Proof.
  intros Hc Hl. unfold registerCall. step_rpc. rewrite Hc. step_rpc.
  rewrite Hl. step_rpc. rewrite lookup_insert_eq. step_rpc.
  cbn. by rewrite <- app_assoc.
Qed.

(** [registerCall] for a [Call] that does not exist panics. *)
Lemma registerCall_dangling w l :
  closing (client w) || shutdown (client w) = false ->
  calls w !! l = None ->
  registerCall l w = Panic nil_deref.
Proof.
  intros Hc Hl. unfold registerCall. step_rpc. rewrite Hc. step_rpc. by rewrite Hl.
Qed.

Lemma removeCall_eq w (k : Z) :
  removeCall k w =
    Ret (pending (client w) !! k,
         logged [Lock mu; Unlock mu]
           (with_client (set_pending (delete k (pending (client w)))) w)).
Proof.
  unfold removeCall. step_rpc. unfold logged, with_client. cbn.
  by rewrite <- app_assoc.
Qed.

Lemma IsAvailable_eq w :
  IsAvailable w =
    Ret (negb (shutdown (client w)) && negb (closing (client w)),
         logged [Lock mu; Unlock mu] w).
Proof.
  unfold IsAvailable. step_rpc. unfold logged. cbn. by rewrite <- app_assoc.
Qed.

(** *** [terminateCalls] *)

Lemma fail_all_lookup err (kls : list (Z * loc)) cs l :
  fail_all err kls cs !! l =
    (if decide (l ∈ kls.*2) then set_Call_Error (Body := Body) err else id) <$> cs !! l.
Proof.
  revert cs. induction kls as [|[k l0] kls IH]; intros cs.
  - cbn. rewrite decide_False by apply not_elem_of_nil. by destruct (cs !! l).
  - change (fail_all err ((k, l0) :: kls) cs)
      with (fail_all err kls (alter (set_Call_Error err) l0 cs)).
    rewrite IH. rewrite fmap_cons. cbn [snd].
    destruct (decide (l = l0)) as [->|Hne].
    + rewrite lookup_alter_eq. rewrite (decide_True (P := l0 ∈ l0 :: kls.*2))
        by apply list_elem_of_here.
      destruct (cs !! l0) as [c|]; [|done]. cbn.
      by destruct (decide (l0 ∈ kls.*2)).
    + rewrite lookup_alter_ne by done.
      destruct (decide (l ∈ kls.*2)) as [Hin|Hnin].
      * by rewrite decide_True by by apply list_elem_of_further.
      * rewrite decide_False; [done|]. intros [?|?]%elem_of_cons; done.
Qed.

Lemma signals_alter_error err (kls : list (Z * loc)) cs l :
  signals (alter (set_Call_Error err) l cs) kls = signals cs kls.
Proof.
  unfold signals. induction kls as [|[k l'] kls IH]; [done|].
  cbn [omap list_omap snd]. rewrite IH.
  destruct (decide (l = l')) as [->|Hne].
  - rewrite lookup_alter_eq. by destruct (cs !! l').
  - by rewrite lookup_alter_ne.
Qed.

(** The loop of [terminateCalls] over entries whose [Call]s exist. *)
Lemma for_each_terminate err (kls : list (Z * loc)) w :
  (forall kl, kl ∈ kls -> is_Some (calls w !! snd kl)) ->
  for_each kls (fun '(_, call) =>
                  gbind (store_call call (set_Call_Error err)) (fun _ => done call)) w =
    Ret (tt, {| client := client w; calls := fail_all err kls (calls w);
                chans := chans w; trace := trace w ++ signals (calls w) kls |}).
Proof.
  revert w. induction kls as [|[k l] kls IH]; intros w Hall.
  - cbn. unfold gret. destruct w; cbn. by rewrite app_nil_r.
  - destruct (Hall (k, l)) as [c Hc]; [apply list_elem_of_here|]. cbn [snd] in Hc.
    cbn [for_each]. unfold done. step_rpc. rewrite Hc. step_rpc.
    rewrite lookup_insert_eq. step_rpc.
    rewrite IH.
    + cbn [client calls chans trace].
      replace (<[l:=set_Call_Error err c]> (calls w))
        with (alter (set_Call_Error err) l (calls w)).
      2:{ apply map_eq. intros l'. destruct (decide (l = l')) as [->|Hne].
          - by rewrite lookup_alter_eq, lookup_insert_eq, Hc.
          - by rewrite lookup_alter_ne, lookup_insert_ne. }
      rewrite signals_alter_error.
      change (fail_all err ((k, l) :: kls) (calls w))
        with (fail_all err kls (alter (set_Call_Error err) l (calls w))).
      change (signals (calls w) ((k, l) :: kls))
        with (match (fun c => Send (Done c) l) <$> calls w !! l with
              | Some ev => ev :: signals (calls w) kls
              | None => signals (calls w) kls
              end).
      rewrite Hc. cbn [fmap option_fmap option_map].
      by rewrite <- (app_assoc (trace w)).
    + intros kl Hkl. cbn [calls].
      destruct (Hall kl) as [c' Hc']; [by apply list_elem_of_further|].
      destruct (decide (l = snd kl)) as [->|Hne].
      * rewrite lookup_insert_eq. by eexists.
      * rewrite lookup_insert_ne by done. by eexists.
Qed.

(** [terminateCalls] in closed form, when the table's [Call]s exist. *)
Lemma terminateCalls_eq err w :
  (forall k l, pending (client w) !! k = Some l -> is_Some (calls w !! l)) ->
  terminateCalls err w =
    Ret (tt, {| client := set_shutdown true (client w);
                calls := fail_all err (map_to_list (pending (client w))) (calls w);
                chans := chans w;
                trace := trace w ++ [Lock sending; Lock mu] ++
                         signals (calls w) (map_to_list (pending (client w))) ++
                         [Unlock mu; Unlock sending] |}).
Proof.
  intros Hall. unfold terminateCalls.
  unfold emit at 1 2, update at 1, the_client at 1, gbind at 1 2 3 4.
  cbn [client calls chans trace with_client pending set_shutdown].
  unfold gbind at 1. rewrite for_each_terminate.
  - step_rpc. do 2 f_equal. f_equal.
    rewrite <- !app_assoc. done.
  - intros [k l] Hkl. cbn [calls snd]. apply (Hall k).
    by apply elem_of_map_to_list in Hkl.
Qed.



Lemma signals_elem cs (kls : list (Z * loc)) (ev : Event) :
  ev ∈ signals cs kls ->
  exists k l c, (k, l) ∈ kls /\ cs !! l = Some c /\ ev = Send (Done c) l.
Proof.
  unfold signals. intros ([k l] & Hin & Hev)%list_elem_of_omap. cbn [snd] in Hev.
  destruct (cs !! l) as [c|] eqn:Hc; [|done]. injection Hev as <-.
  by exists k, l, c.
Qed.


(** A turn of the loop in which the header cannot be read. *)
Lemma receive_turn_header_error w (e : error) :
  fst (ReadHeader (cc (client w))) = inl e ->
  receive_turn fmt_Errorf w =
    Ret (Some (HeaderReadFailed, e),
         with_client (set_cc (snd (ReadHeader (cc (client w))))) w).
Proof. intros He. unfold receive_turn. step_rpc. by rewrite He. Qed.

Lemma gbind_inv {S A B} (m : G S A) (k : A -> G S B) (s s' : S) (b : B) :
  gbind m k s = Ret (b, s') -> exists a s1, m s = Ret (a, s1) /\ k a s1 = Ret (b, s').
Proof. unfold gbind. destruct (m s) as [[a s1]| |]; [eauto|done|done]. Qed.



(** *** [Close] and [registerCall] in the terminal states *)

(** C3, as the code has it. In every world [w0]: [Close] looks at
    [closing] alone; on a client that is closing it returns [ErrShutdown]
    and touches nothing but the lock; on any other client, shut down or
    not, it sets [closing], closes the codec and returns what the codec's
    [Close] returned. After it the client is closing: a second [Close]
    returns [ErrShutdown] without closing the codec again, and
    [registerCall] fails with [ErrShutdown]. In every terminal state [w],
    closing or shut down, [registerCall] fails with [ErrShutdown], the
    table and the counter untouched. *)
Theorem Close_twice_and_terminal_registerCall w0 w l
    (Hterminal : closing (client w) || shutdown (client w) = true) :
  Close w0 =
    (if closing (client w0)
     then Ret (Some ErrShutdown, logged [Lock mu; Unlock mu] w0)
     else Ret (fst (codec.Close (cc (client w0))),
               logged [Lock mu; Unlock mu]
                 (with_client (fun cl => set_cc (snd (codec.Close (cc cl)))
                                           (set_closing true cl)) w0))) /\
  (exists e1 w1,
     Close w0 = Ret (e1, w1) /\ closing (client w1) = true /\
     Close w1 = Ret (Some ErrShutdown, logged [Lock mu; Unlock mu] w1) /\
     registerCall l w1 = Ret ((0, Some ErrShutdown), logged [Lock mu; Unlock mu] w1)) /\
  registerCall l w = Ret ((0, Some ErrShutdown), logged [Lock mu; Unlock mu] w).
Proof.
  split; [|split].
  - destruct (closing (client w0)) eqn:Hc.
    + by apply Close_closing.
    + by apply Close_not_closing.
  - assert (Hnext : forall e1 w1, closing (client w1) = true ->
              Close w0 = Ret (e1, w1) ->
              exists e1 w1,
                Close w0 = Ret (e1, w1) /\ closing (client w1) = true /\
                Close w1 = Ret (Some ErrShutdown, logged [Lock mu; Unlock mu] w1) /\
                registerCall l w1 =
                  Ret ((0, Some ErrShutdown), logged [Lock mu; Unlock mu] w1)).
    { intros e1 w1 Hc Hrun. exists e1, w1. split; [done|]. split; [done|].
      split; [by apply Close_closing|]. apply registerCall_terminal. by rewrite Hc. }
    destruct (closing (client w0)) eqn:Hc0.
    + eapply Hnext; [|by apply Close_closing]. done.
    + eapply Hnext; [|by apply Close_not_closing]. done.
  - by apply registerCall_terminal.
Qed.

End ClientProps.

(** A client that is just made closes twice: nil, then [ErrShutdown];
    once its [receive] has failed, it is shut down and rejects calls. *)
Lemma Close_twice_on_new_client :
  client_go.receive demo.demo_Errorf 1 demo.world0 = Ret (true, demo.world_shutdown) /\
  client_go.closing (client_go.client demo.world_shutdown)
    || client_go.shutdown (client_go.client demo.world_shutdown) = true /\
  client_go.Close demo.world0 =
    Ret (None,
         client_go.logged [client_go.Lock client_go.mu; client_go.Unlock client_go.mu]
           (client_go.with_client
              (fun cl => client_go.set_cc (snd (codec.Close (client_go.cc cl)))
                           (client_go.set_closing true cl)) demo.world0)) /\
  (exists e1 w1,
     client_go.Close demo.world0 = Ret (e1, w1) /\
     client_go.closing (client_go.client w1) = true /\
     client_go.Close w1 =
       Ret (Some client_go.ErrShutdown,
            client_go.logged [client_go.Lock client_go.mu; client_go.Unlock client_go.mu] w1) /\
     client_go.registerCall 1%positive w1 =
       Ret ((0, Some client_go.ErrShutdown),
            client_go.logged [client_go.Lock client_go.mu; client_go.Unlock client_go.mu] w1)) /\
  client_go.registerCall 1%positive demo.world_shutdown =
    Ret ((0, Some client_go.ErrShutdown),
         client_go.logged [client_go.Lock client_go.mu; client_go.Unlock client_go.mu]
           demo.world_shutdown).
Proof.
  split; [vm_compute; reflexivity|].
  split; [vm_compute; reflexivity|].
  exact (Close_twice_and_terminal_registerCall demo.world0 demo.world_shutdown
           1%positive eq_refl).
Defined.

(** C3 as stated fails: a client whose [receive] failed is shut down, and
    its first [Close] then returns nil, not the shutdown error, and closes
    the connection. *)
Lemma Close_after_shutdown_returns_nil :
  exists w1 w2,
    client_go.receive demo.demo_Errorf 1 demo.world0 = Ret (true, w1) /\
    client_go.shutdown (client_go.client w1) = true /\
    client_go.Close w1 = Ret (None, w2) /\
    None <> Some client_go.ErrShutdown /\
    codec.closed (codec.world (client_go.cc (client_go.client w1))) = false /\
    codec.closed (codec.world (client_go.cc (client_go.client w2))) = true.
Proof.
  eexists _, _. split; [vm_compute; reflexivity|].
  split; [reflexivity|]. split; [vm_compute; reflexivity|].
  split; [discriminate|]. split; reflexivity.
Qed.


(** *** [send] and [Go] *)

Section GoProps.
Import codec client_go.
Context {C Body : Type} `{!Codec C Body}.

Implicit Types (w : World (C := C) (Body := Body)) (l : loc).

Ltac step_rpc :=
  unfold emit, the_client, update, load_call, store_call, gret, gbind, gpanic;
  rewrite ?on_cc_eq;
  cbn [client calls chans trace with_client fst snd
       cc opt header seq pending closing shutdown
       set_cc set_header set_seq set_pending set_closing set_shutdown].

(** [send] of a [Call] that exists returns; it leaves the channels as they
    are and the [Call] on the [Done] it had. *)
Lemma send_returns w l (c : Call) :
  calls w !! l = Some c ->
  exists w' c',
    send l w = Ret (tt, w') /\ chans w' = chans w /\
    calls w' !! l = Some c' /\ Done c' = Done c.
Proof.
  intros Hl. unfold send.
  rewrite (gbind_Ret (emit (Lock sending)) _ w (logged [Lock sending] w) tt eq_refl).
  destruct (closing (client w) || shutdown (client w)) eqn:Hterm.
  - rewrite (gbind_Ret _ _ _ _ _ (registerCall_terminal (logged [Lock sending] w) l Hterm)).
    unfold done, logged. step_rpc. rewrite Hl. step_rpc.
    rewrite lookup_insert_eq. step_rpc.
    eexists _, _. split; [reflexivity|]. cbn [chans calls].
    split; [done|]. by rewrite lookup_insert_eq.
  - rewrite (gbind_Ret _ _ _ _ _
               (registerCall_open (logged [Lock sending] w) l c Hterm Hl)).
    unfold logged. step_rpc. rewrite lookup_insert_eq. step_rpc.
    match goal with
    | |- context [fst (Write ?h ?a ?cd)] => destruct (fst (Write h a cd)) as [e|]
    end.
    + rewrite removeCall_eq.
      unfold logged, done. step_rpc. rewrite lookup_insert_eq. step_rpc.
      rewrite !lookup_insert_eq. step_rpc. rewrite ?lookup_insert_eq. step_rpc.
      eexists _, _. split; [reflexivity|]. cbn [chans calls].
      split; [done|]. by rewrite lookup_insert_eq.
    + step_rpc. eexists _, _. split; [reflexivity|]. cbn [chans calls].
      split; [done|]. by rewrite lookup_insert_eq.
Qed.

(** C8. In every world [w], [Go] with a nil [done] returns a call whose
    [Done] is a channel that did not exist before and has capacity 10.
    In every world [wz] where [ch] is a channel of capacity 0, [Go] with
    [ch] panics, before any call is made or sent. *)
Theorem Go_allocates_done_or_panics w wz (serviceMethod : string) (args : Body)
    (reply : option (option Body)) (ch : chan)
    (Hcap : chans wz !! ch = Some 0%nat) :
  Go serviceMethod args reply (Some ch) wz = Panic "rpc client: done channel is unbuffered" /\
  exists call c w',
    Go serviceMethod args reply None w = Ret (call, w') /\
    calls w !! call = None /\
    calls w' !! call = Some c /\
    chans w !! Done c = None /\
    chans w' !! Done c = Some 10%nat.
Proof.
  split.
  - unfold Go, cap, gbind. by rewrite Hcap.
  - unfold Go, make_chan, new_call.
    unfold gbind at 1 2. cbn [client calls chans trace].
    set (d := fresh (dom (chans w))). set (call := fresh (dom (calls w))).
    set (c0 := {| Call_Seq := 0; Call_ServiceMethod := serviceMethod; Args := args;
                  Reply := reply; Call_Error := None; Done := d |}).
    set (w1 := {| client := client w; calls := <[call := c0]> (calls w);
                  chans := <[d := 10%nat]> (chans w); trace := trace w |}).
    destruct (send_returns w1 call c0) as (w' & c' & Hsend & Hch & Hc' & Hd).
    { apply lookup_insert_eq. }
    exists call, c', w'. unfold gbind. rewrite Hsend. unfold gret.
    split; [done|].
    assert (Hfresh_call : calls w !! call = None).
    { apply not_elem_of_dom. apply is_fresh. }
    assert (Hfresh_d : chans w !! d = None).
    { apply not_elem_of_dom. apply is_fresh. }
    split; [done|]. split; [done|].
    rewrite Hd, Hch. cbn [Done c0 chans w1].
    split; [done|]. apply lookup_insert_eq.
Qed.
End GoProps.

Section GoExample.
Import codec client_go.

(** [Go] with an unbuffered channel panics; on a client that is just
    made, [Go] with a nil channel makes one of capacity 10. *)
Lemma Go_on_new_client :
  chans demo.world_unbuffered !! demo.unbuffered = Some 0%nat /\
  Go "Foo.Sum" "1" (Some None) (Some demo.unbuffered) demo.world_unbuffered
    = Panic "rpc client: done channel is unbuffered" /\
  exists call c w',
    Go "Foo.Sum" "1" (Some None) None demo.world0 = Ret (call, w') /\
    calls demo.world0 !! call = None /\
    calls w' !! call = Some c /\
    chans demo.world0 !! Done c = None /\
    chans w' !! Done c = Some 10%nat.
Proof.
  split; [reflexivity|].
  exact (Go_allocates_done_or_panics demo.world0 demo.world_unbuffered "Foo.Sum" "1"
           (Some None) demo.unbuffered eq_refl).
Defined.
End GoExample.

(** *** The sequence numbers of a lifetime *)

Section SeqProps.
Import codec client_go.
Context {C Body : Type} `{!Codec C Body}.

Implicit Types (w : World (C := C) (Body := Body)) (l : loc).

Ltac step_rpc :=
  unfold emit, the_client, update, load_call, store_call, gret, gbind, gpanic;
  rewrite ?on_cc_eq;
  cbn [client calls chans trace with_client fst snd
       cc opt header seq pending closing shutdown
       set_cc set_header set_seq set_pending set_closing set_shutdown].

Lemma store_call_client w l (f : Call -> Call) (a : unit) w' :
  store_call l f w = Ret (a, w') -> client w' = client w.
Proof.
  unfold store_call. destruct (calls w !! l); [|done]. by intros [= _ <-].
Qed.

Lemma done_client w l (a : unit) w' :
  done l w = Ret (a, w') -> client w' = client w.
Proof.
  unfold done, load_call, gbind, emit. destruct (calls w !! l); [|done].
  by intros [= _ <-].
Qed.

(** A loop whose body leaves the client's fields alone leaves them alone. *)
Lemma for_each_client {A} (xs : list A) (body : A -> G World unit) w w' (a : unit) :
  (forall x w1 a1 w2, body x w1 = Ret (a1, w2) -> client w2 = client w1) ->
  for_each xs body w = Ret (a, w') -> client w' = client w.
Proof.
  intros Hbody. revert w. induction xs as [|x xs IH]; intros w.
  - cbn. unfold gret. by intros [= _ <-].
  - cbn [for_each]. unfold gbind at 1.
    destruct (body x w) as [[a1 w1]| |] eqn:Hx; [|done|done].
    intros Hrest. rewrite (IH _ Hrest). by apply (Hbody x w a1).
Qed.

Lemma terminateCalls_client w err (a : unit) w' :
  terminateCalls err w = Ret (a, w') -> client w' = set_shutdown true (client w).
Proof.
  unfold terminateCalls.
  unfold emit at 1 2, update at 1, the_client at 1, gbind at 1 2 3 4.
  cbn [client calls chans trace with_client pending set_shutdown].
  unfold gbind at 1.
  match goal with
  | |- context [for_each ?xs ?body ?w0] =>
      destruct (for_each xs body w0) as [[a1 w1]| |] eqn:Hloop; [|done|done]
  end.
  apply for_each_client in Hloop.
  - step_rpc. intros [= _ <-]. cbn [client]. by rewrite Hloop.
  - intros [k l] w1' a1' w2'. unfold gbind at 1.
    destruct (store_call l (set_Call_Error err) w1') as [[a2 w3]| |] eqn:Hst; [|done|done].
    intros Hd. rewrite (done_client _ _ _ _ Hd). by apply (store_call_client _ _ _ _ _ Hst).
Qed.

(** What a step does to the counter: a registration that succeeds is
    assigned the counter's value and moves the counter on; every other
    step leaves it where it is. *)
Lemma run_step_seq (s : step) w (r : option Z) w' :
  run_step s w = Ret (r, w') ->
  match r with
  | Some k => k = seq (client w) /\ seq (client w') = uint64_incr (seq (client w))
  | None => seq (client w') = seq (client w)
  end.
Proof.
  destruct s as [l|k| | |e| |slot|h b|l e|l v|l|h|n|c|m|m]; cbn [run_step].
  - unfold gbind at 1.
    destruct (closing (client w) || shutdown (client w)) eqn:Hterm.
    + rewrite (registerCall_terminal _ _ Hterm). unfold gret. cbn. by intros [= <- <-].
    + destruct (calls w !! l) as [c|] eqn:Hl.
      * rewrite (registerCall_open _ _ c Hterm Hl). unfold gret. cbn.
        by intros [= <- <-].
      * by rewrite (registerCall_dangling _ _ Hterm Hl).
  - unfold gbind at 1. rewrite removeCall_eq. unfold gret. by intros [= <- <-].
  - unfold gbind at 1. destruct (closing (client w)) eqn:Hc.
    + rewrite (Close_closing _ Hc). unfold gret. by intros [= <- <-].
    + rewrite (Close_not_closing _ Hc). unfold gret. by intros [= <- <-].
  - unfold gbind at 1. rewrite IsAvailable_eq. unfold gret. by intros [= <- <-].
  - unfold gbind at 1.
    destruct (terminateCalls e w) as [[a w1]| |] eqn:Ht; [|done|done].
    unfold gret. intros [= <- <-]. by rewrite (terminateCalls_client _ _ _ _ Ht).
  - step_rpc. by intros [= <- <-].
  - step_rpc. by intros [= <- <-].
  - step_rpc. by intros [= <- <-].
  - unfold gbind at 1.
    destruct (store_call l (set_Call_Error e) w) as [[a w1]| |] eqn:Hst; [|done|done].
    unfold gret. intros [= <- <-]. by rewrite (store_call_client _ _ _ _ _ Hst).
  - unfold gbind at 1.
    destruct (store_call l (set_Reply (Some (Some v))) w) as [[a w1]| |] eqn:Hst;
      [|done|done].
    unfold gret. intros [= <- <-]. by rewrite (store_call_client _ _ _ _ _ Hst).
  - unfold gbind at 1.
    destruct (done l w) as [[a w1]| |] eqn:Hd; [|done|done].
    unfold gret. intros [= <- <-]. by rewrite (done_client _ _ _ _ Hd).
  - step_rpc. by intros [= <- <-].
  - unfold make_chan, gbind, gret. by intros [= <- <-].
  - unfold new_call, gbind, gret. by intros [= <- <-].
  - step_rpc. by intros [= <- <-].
  - step_rpc. by intros [= <- <-].
Qed.

Lemma uint64_incr_range (x : Z) : 0 <= uint64_incr x < 2 ^ 64.
Proof. unfold uint64_incr. apply Z.mod_pos_bound. lia. Qed.

Lemma uint64_incr_small (x : Z) : 0 <= x -> x + 1 < 2 ^ 64 -> uint64_incr x = x + 1.
Proof. intros. unfold uint64_incr. apply Z.mod_small. lia. Qed.

(** As long as the counter does not pass [2^64 - 1], the sequence numbers
    a lifetime assigns are the consecutive values from the counter on. *)
Lemma assigned_consecutive (steps : list step) w :
  0 <= seq (client w) ->
  seq (client w) + Z.of_nat (length (assigned steps w)) <= 2 ^ 64 ->
  assigned steps w = seqZ (seq (client w)) (Z.of_nat (length (assigned steps w))).
Proof.
  revert w. induction steps as [|s steps IH]; intros w Hpos Hlen; [done|].
  cbn [assigned] in *.
  destruct (run_step s w) as [[[k|] w1]| |] eqn:Hstep; [| |done|done].
  - apply run_step_seq in Hstep as [-> Hnext].
    cbn [length] in *. rewrite seqZ_cons by lia. f_equal.
    replace (Z.pred (Z.of_nat (S (length (assigned steps w1)))))
      with (Z.of_nat (length (assigned steps w1))) by lia.
    destruct (decide (length (assigned steps w1) = 0%nat)) as [Hz|Hnz].
    + rewrite Hz. apply nil_length_inv in Hz. by rewrite Hz.
    + assert (Hsmall : uint64_incr (seq (client w)) = seq (client w) + 1)
        by (apply uint64_incr_small; lia).
      replace (Z.succ (seq (client w))) with (seq (client w1)) by lia.
      apply IH; lia.
  - apply run_step_seq in Hstep. rewrite <- Hstep. apply IH; rewrite Hstep; lia.
Qed.

Lemma StronglySorted_seqZ (m n : Z) : StronglySorted Z.lt (seqZ m n).
Proof.
  destruct (Z_le_gt_dec n 0) as [Hn|Hn]; [rewrite seqZ_nil by done; constructor|].
  rewrite <- (Z2Nat.id n) by lia. generalize (Z.to_nat n) as k. clear. intros k.
  revert m. induction k as [|k IH]; intros m; [constructor|].
  rewrite seqZ_cons by lia. constructor.
  - replace (Z.pred (Z.of_nat (S k))) with (Z.of_nat k) by lia. apply IH.
  - apply Forall_seqZ. lia.
Qed.

(** C9, as the code has it. Along any lifetime of a client made by
    [newClientCodec], as long as no more than [2^64 - 1] calls have been
    registered, the sequence numbers assigned are 1, 2, 3, ... in the order
    of the registrations: strictly increasing, without repetition, and
    never 0. *)
Theorem assigned_seqs_increase_from_1 (c : C) (o : option loc)
    (cs : gmap loc Call) (chs : gmap chan nat) (steps : list step)
    (Hbound : Z.of_nat (length (assigned steps (new_world c o cs chs))) <= 2 ^ 64 - 1) :
  let a := assigned steps (new_world c o cs chs) in
  a = seqZ 1 (Z.of_nat (length a)) /\
  StronglySorted Z.lt a /\
  NoDup a /\
  Forall (fun k => 1 <= k <= 2 ^ 64 - 1) a.
Proof.
  intros a.
  assert (Ha : a = seqZ 1 (Z.of_nat (length a))).
  { subst a. apply (assigned_consecutive steps (new_world c o cs chs)); cbn; lia. }
  split; [done|]. rewrite Ha.
  split; [apply StronglySorted_seqZ|]. split; [apply NoDup_seqZ|].
  apply Forall_seqZ. subst a. lia.
Qed.
End SeqProps.

Section SeqWrap.
Import codec client_go.
Context {C Body : Type} `{!Codec C Body}.

Implicit Types (w : World (C := C) (Body := Body)) (l : loc).

(** Registering [n] times on an open client: the counter's values, modulo
    [2^64]. *)
Lemma assigned_replicate (n : nat) w l (c : Call) :
  0 <= seq (client w) < 2 ^ 64 ->
  closing (client w) || shutdown (client w) = false ->
  calls w !! l = Some c ->
  assigned (replicate n (SRegister l)) w =
    (fun i => (seq (client w) + i) mod 2 ^ 64) <$> seqZ 0 (Z.of_nat n).
Proof.
  revert w c. induction n as [|n IH]; intros w c Hrange Hopen Hl; [done|].
  cbn [replicate assigned run_step]. unfold gbind at 1.
  rewrite (registerCall_open _ _ c Hopen Hl). unfold gret. cbn [fst snd].
  rewrite seqZ_cons by lia. rewrite fmap_cons. f_equal.
  - rewrite Z.add_0_r. symmetry. by apply Z.mod_small.
  - erewrite IH; cbn [client seq set_seq set_pending closing shutdown calls].
    + replace (Z.pred (Z.of_nat (S n))) with (Z.of_nat n) by lia.
      change (Z.succ 0) with (1 + 0). rewrite <- fmap_add_seqZ, <- list_fmap_compose.
      apply list_fmap_ext. intros _ i _. cbn. unfold uint64_incr.
      rewrite Zplus_mod_idemp_l. f_equal. lia.
    + apply uint64_incr_range.
    + done.
    + apply lookup_insert_eq.
Qed.

(** On a client whose counter is at 1, among [n = 2^64] registrations the
    one at index [i = 2^64 - 2] is assigned [2^64 - 1] and the one after it
    is assigned 0. *)
Lemma assigned_wraps (n i : nat) w l (c : Call) :
  seq (client w) = 1 ->
  closing (client w) || shutdown (client w) = false ->
  calls w !! l = Some c ->
  Z.of_nat n = 2 ^ 64 ->
  Z.of_nat i = 2 ^ 64 - 2 ->
  assigned (replicate n (SRegister l)) w !! i = Some (2 ^ 64 - 1) /\
  assigned (replicate n (SRegister l)) w !! S i = Some 0.
Proof.
  intros Hseq Hopen Hl Hn Hi.
  rewrite (assigned_replicate n w l c) by (rewrite ?Hseq; done).
  rewrite !list_lookup_fmap, !lookup_seqZ_lt by lia.
  rewrite Hseq, Nat2Z.inj_succ, Hi. split; reflexivity.
Qed.
End SeqWrap.

Section SeqExample.
Import codec client_go.

(** A short lifetime: the two calls registered get 1 and 2, the one
    registered after [Close] gets nothing. *)
Lemma short_life_assigns_1_2 :
  assigned demo.short_life demo.world_two_calls = [1; 2] /\
  Z.of_nat (length (assigned demo.short_life demo.world_two_calls)) <= 2 ^ 64 - 1 /\
  let a := assigned demo.short_life demo.world_two_calls in
  a = seqZ 1 (Z.of_nat (length a)) /\
  StronglySorted Z.lt a /\
  NoDup a /\
  Forall (fun k => 1 <= k <= 2 ^ 64 - 1) a.
Proof.
  split; [vm_compute; reflexivity|].
  split; [vm_compute; discriminate|].
  apply (assigned_seqs_increase_from_1 demo.gob0 None
           (<[1%positive := demo.call1]> (<[2%positive := demo.call2]> ∅)) ∅
           demo.short_life).
  vm_compute. discriminate.
Defined.

(** C9 as stated fails: [seq] is a [uint64]. On a client that is just
    made, the registration number [2^64 - 1] is assigned [2^64 - 1], and the
    next one is assigned 0. *)
Lemma seq_wraps_to_zero :
  assigned demo.long_life demo.world_two_calls !! N.to_nat (2 ^ 64 - 2) = Some (2 ^ 64 - 1) /\
  assigned demo.long_life demo.world_two_calls !! S (N.to_nat (2 ^ 64 - 2)) = Some 0.
Proof.
  exact (assigned_wraps (N.to_nat (2 ^ 64)) (N.to_nat (2 ^ 64 - 2))
           demo.world_two_calls 1%positive demo.call1 eq_refl eq_refl eq_refl
           (eq_trans (N_nat_Z (2 ^ 64)) eq_refl)
           (eq_trans (N_nat_Z (2 ^ 64 - 2)) eq_refl)).
Qed.
End SeqExample.

(** *** The pending table stays well formed *)

Section PendingInvariant.
Import codec client_go.
Context {C Body : Type} `{!Codec C Body}.

Implicit Types (w : World (C := C) (Body := Body)) (l : loc).
Local Abbreviation W := (World (C := C) (Body := Body)).
Local Abbreviation keeps_pending_ok := (keeps_pending_ok (C := C) (Body := Body)).

Lemma keeps_bind {A B} (m : G W A) (k : A -> G W B) :
  keeps_pending_ok m -> (forall a, keeps_pending_ok (k a)) -> keeps_pending_ok (gbind m k).
Proof.
  intros Hm Hk w b w' Hok (a & w1 & H1 & H2)%gbind_inv.
  eapply Hk; [|exact H2]. by eapply Hm.
Qed.

Lemma keeps_gret {A} (a : A) : keeps_pending_ok (gret a).
Proof. intros w a' w' Hok. unfold gret. by intros [= _ <-]. Qed.

Lemma keeps_emit (ev : Event) : keeps_pending_ok (emit ev).
Proof. intros w a w' Hok. unfold emit. by intros [= _ <-]. Qed.

Lemma keeps_load_call l : keeps_pending_ok (load_call l).
Proof.
  intros w a w' Hok. unfold load_call. destruct (calls w !! l); [|done].
  by intros [= _ <-].
Qed.

(** A field of the client other than the table may change freely. *)
Lemma keeps_update (f : Client -> Client) :
  (forall cl, pending (f cl) = pending cl) -> keeps_pending_ok (update f).
Proof.
  intros Hf w a w' Hok. unfold update. intros [= _ <-].
  intros k l. cbn [client calls with_client]. rewrite Hf. apply Hok.
Qed.

(** A store into a [Call] that leaves its [Seq] alone. *)
Lemma keeps_store_call l (f : Call -> Call) :
  (forall c, Call_Seq (f c) = Call_Seq c) -> keeps_pending_ok (store_call l f).
Proof.
  intros Hf w a w' Hok. unfold store_call.
  destruct (calls w !! l) as [c|] eqn:Hl; [|done]. intros [= _ <-].
  intros k l' Hk. cbn [client calls] in *. destruct (Hok k l' Hk) as (c' & Hc' & <-).
  destruct (decide (l = l')) as [->|Hne].
  - rewrite lookup_insert_eq. exists (f c). split; [done|]. rewrite Hf. congruence.
  - rewrite lookup_insert_ne by done. by exists c'.
Qed.

Lemma keeps_done l : keeps_pending_ok (done l).
Proof. apply keeps_bind; [apply keeps_load_call|]. intros c. apply keeps_emit. Qed.

Lemma keeps_for_each {A} (xs : list A) (body : A -> G W unit) :
  (forall x, keeps_pending_ok (body x)) -> keeps_pending_ok (for_each xs body).
Proof.
  intros Hbody. induction xs as [|x xs IH]; cbn [for_each].
  - apply keeps_gret.
  - apply keeps_bind; [apply Hbody|]. by intros _.
Qed.

Lemma keeps_terminateCalls err : keeps_pending_ok (terminateCalls err).
Proof.
  unfold terminateCalls.
  repeat (apply keeps_bind; [first [apply keeps_emit | by apply keeps_update]|]; intros _).
  apply keeps_bind; [intros w a w' Hok; unfold the_client; by intros [= _ <-]|].
  intros cl. apply keeps_bind.
  - apply keeps_for_each. intros [k l].
    apply keeps_bind; [by apply keeps_store_call|]. intros _. apply keeps_done.
  - intros _. apply keeps_bind; [apply keeps_emit|]. intros _. apply keeps_emit.
Qed.

End PendingInvariant.

(** *** No call is signalled while it is pending *)

Section SignalInvariant.
Import codec client_go.
Context {C Body : Type} `{!Codec C Body}.
Variable fmt_Errorf : string -> error.

Implicit Types (w : World (C := C) (Body := Body)) (l : loc) (L : loc -> Prop).
Local Abbreviation W := (World (C := C) (Body := Body)).

Lemma evolves_refl L w : evolves L w w.
Proof.
  split; [done|]. split; [done|]. split; [by eauto|].
  exists []. split; [by rewrite app_nil_r|]. intros ch l Hin. by apply elem_of_nil in Hin.
Qed.

Lemma evolves_trans L w1 w2 w3 : evolves L w1 w2 -> evolves L w2 w3 -> evolves L w1 w3.
Proof.
  intros (Hp1 & Hs1 & Hc1 & evs1 & Ht1 & He1) (Hp2 & Hs2 & Hc2 & evs2 & Ht2 & He2).
  split; [congruence|]. split; [congruence|]. split.
  - intros l c Hl. destruct (Hc1 l c Hl) as (c1 & Hl1 & Hq1).
    destruct (Hc2 l c1 Hl1) as (c2 & Hl2 & Hq2). exists c2. split; [done|congruence].
  - exists (evs1 ++ evs2)%list. split; [by rewrite Ht2, Ht1, app_assoc|].
    intros ch l [Hin|Hin]%elem_of_app.
    + destruct (He1 ch l Hin) as [HL [c Hc]]. split; [done|].
      destruct (Hc2 l c Hc) as (c' & Hc' & _). by eexists.
    + by apply (He2 ch).
Qed.

(** A change of fields other than the table and [shutdown], with events
    that are no signals. *)
Lemma evolves_quiet L w w' (evs : list Event) :
  pending (client w') = pending (client w) ->
  shutdown (client w') = shutdown (client w) ->
  calls w' = calls w ->
  trace w' = (trace w ++ evs)%list ->
  (forall ch l, Send ch l ∉ evs) ->
  evolves L w w'.
Proof.
  intros Hp Hs Hc Ht Hev. split; [done|]. split; [done|]. split.
  - intros l c Hl. exists c. by rewrite Hc.
  - exists evs. split; [done|]. intros ch l Hin. by destruct (Hev ch l).
Qed.

Lemma evolving_bind L {A B} (m : G W A) (k : A -> G W B) :
  evolving L m -> (forall a, evolving L (k a)) -> evolving L (gbind m k).
Proof.
  intros Hm Hk w b w' (a & w1 & H1 & H2)%gbind_inv.
  eapply evolves_trans; [by eapply Hm|by eapply Hk].
Qed.

Lemma evolving_run L {A} (m : G W A) w (a : A) w' :
  evolving L m -> m w = Ret (a, w') -> evolves L w w'.
Proof. intros Hm. apply Hm. Qed.

Lemma evolving_gret L {A} (a : A) : evolving (C := C) (Body := Body) L (gret a).
Proof. intros w a' w'. unfold gret. intros [= _ <-]. apply evolves_refl. Qed.

Lemma evolving_the_client L : evolving (C := C) (Body := Body) L the_client.
Proof. intros w a' w'. unfold the_client. intros [= _ <-]. apply evolves_refl. Qed.

Lemma evolving_emit L (ev : Event) :
  (forall ch l, ev <> Send ch l) -> evolving (C := C) (Body := Body) L (emit ev).
Proof.
  intros Hev w a w'. unfold emit. intros [= _ <-].
  apply (evolves_quiet _ _ _ [ev]); try done.
  intros ch l Heq%list_elem_of_singleton. exact (Hev ch l (eq_sym Heq)).
Qed.

Lemma evolving_on_cc L {A} (f : C -> A * C) : evolving (Body := Body) L (on_cc f).
Proof.
  intros w a w'. rewrite on_cc_eq. intros [= _ <-].
  apply (evolves_quiet _ _ _ []); try done; [by rewrite app_nil_r|].
  intros ch l Hin. by apply elem_of_nil in Hin.
Qed.

Lemma evolving_update L (f : Client -> Client) :
  (forall cl, pending (f cl) = pending cl) -> (forall cl, shutdown (f cl) = shutdown cl) ->
  evolving (C := C) (Body := Body) L (update f).
Proof.
  intros Hp Hs w a w'. unfold update. intros [= _ <-].
  apply (evolves_quiet _ _ _ []); cbn; try done; [by rewrite app_nil_r|].
  intros ch l Hin. by apply elem_of_nil in Hin.
Qed.

Lemma evolves_update L (f : Client -> Client) w (a : unit) w' :
  update f w = Ret (a, w') ->
  (forall cl, pending (f cl) = pending cl) -> (forall cl, shutdown (f cl) = shutdown cl) ->
  evolves L w w'.
Proof. intros Hrun Hp Hs. by apply (evolving_update L f Hp Hs w a w'). Qed.

Lemma evolving_load_call L l : evolving (C := C) (Body := Body) L (load_call l).
Proof.
  intros w a w'. unfold load_call. destruct (calls w !! l); [|done].
  intros [= _ <-]. apply evolves_refl.
Qed.

Lemma evolving_store_call L l (f : Call -> Call) :
  (forall c, Call_Seq (f c) = Call_Seq c) ->
  evolving (C := C) (Body := Body) L (store_call l f).
Proof.
  intros Hf w a w'. unfold store_call. destruct (calls w !! l) as [c|] eqn:Hl; [|done].
  intros [= _ <-]. split; [done|]. split; [done|]. split.
  - intros l' c' Hl'. cbn. destruct (decide (l = l')) as [->|Hne].
    + rewrite lookup_insert_eq. exists (f c). split; [done|]. rewrite Hf. congruence.
    + rewrite lookup_insert_ne by done. by exists c'.
  - exists []. split; [by cbn; rewrite app_nil_r|].
    intros ch l' Hin. by apply elem_of_nil in Hin.
Qed.

(** [call.done()] is the one step that signals, and it signals [call]. *)
Lemma evolving_done L l : L l -> evolving (C := C) (Body := Body) L (done l).
Proof.
  intros HL w a w'. unfold done, load_call, gbind, emit.
  destruct (calls w !! l) as [c|] eqn:Hl; [|done]. intros [= _ <-].
  split; [done|]. split; [done|]. split; [by eauto|].
  exists [Send (Done c) l]. split; [done|].
  intros ch l' [= -> ->]%list_elem_of_singleton. split; [done|]. by eexists.
Qed.

(** Signals for calls that are not pending keep a client in good order. *)
Lemma evolves_client_ok L w w' :
  client_ok w -> evolves L w w' ->
  (forall l, L l -> forall k, pending (client w) !! k <> Some l) ->
  client_ok w'.
Proof.
  intros (Hpend & Halloc & Hquiet) (Hp & Hs & Hc & evs & Ht & Hev) HL.
  split; [|split].
  - intros k l Hk. rewrite Hp in Hk. destruct (Hpend k l Hk) as (c & Hl & Hq).
    destruct (Hc l c Hl) as (c' & Hl' & Hq'). exists c'. split; [done|congruence].
  - intros ch l. rewrite Ht. intros [Hin|Hin]%elem_of_app.
    + destruct (Halloc ch l Hin) as [c Hl]. destruct (Hc l c Hl) as (c' & Hl' & _).
      by eexists.
    + by apply (Hev ch l).
  - rewrite Hs, Hp. intros Hlive k l Hk ch. rewrite Ht.
    intros [Hin|Hin]%elem_of_app.
    + by apply (Hquiet Hlive k l Hk ch).
    + destruct (Hev ch l Hin) as [Hl _]. by apply (HL l Hl k).
Qed.

(** Once a call has left the table it is nowhere in it. *)
Lemma removed_not_pending w (k : Z) l :
  pending_ok w -> pending (client w) !! k = Some l ->
  forall k', delete k (pending (client w)) !! k' <> Some l.
Proof.
  intros Hok Hk k' [Hne Hk']%lookup_delete_Some.
  destruct (Hok k l Hk) as (c & Hc & Hq). destruct (Hok k' l Hk') as (c' & Hc' & Hq').
  congruence.
Qed.

Lemma client_ok_removeCall w (k : Z) :
  client_ok w ->
  client_ok (logged [Lock mu; Unlock mu]
               (with_client (set_pending (delete k (pending (client w)))) w)).
Proof.
  intros (Hpend & Halloc & Hquiet). split; [|split].
  - intros k' l. cbn. intros [_ Hk]%lookup_delete_Some. by apply Hpend.
  - intros ch l. cbn. intros [Hin|Hin]%elem_of_app; [by apply (Halloc ch)|].
    apply elem_of_cons in Hin as [?|Hin]; [done|].
    by apply list_elem_of_singleton in Hin.
  - cbn. intros Hlive k' l [_ Hk]%lookup_delete_Some ch [Hin|Hin]%elem_of_app.
    + by apply (Hquiet Hlive k' l Hk ch).
    + apply elem_of_cons in Hin as [?|Hin]; [done|].
      by apply list_elem_of_singleton in Hin.
Qed.

(** What the loop of [receive] does with a header once the call has
    been looked up: it signals that call and no other. *)
Lemma evolving_receive_body (h : Header) (call : option loc) :
  evolving (fun l => call = Some l)
    (match call with
     | None => gbind (on_cc (ReadBody false)) (fun rb => gret (fst rb))
     | Some call =>
         if negb (bool_decide (Error h = "")) then
           gbind (store_call call (set_Call_Error (Some (fmt_Errorf (Error h)))))
             (fun _ => gbind (on_cc (ReadBody false))
                (fun rb => gbind (done call) (fun _ => gret (fst rb))))
         else
           gbind (load_call call)
             (fun c => gbind (on_cc (ReadBody (bool_decide (is_Some (Reply c)))))
                (fun rb =>
                   gbind (match snd rb with
                          | Some v => store_call call (set_Reply (Some (Some v)))
                          | None => gret tt
                          end)
                     (fun _ =>
                        gbind (match fst rb with
                               | Some e =>
                                   store_call call
                                     (set_Call_Error
                                        (Some (errors_New ("reading body " ++ Error_msg e))))
                               | None => gret tt
                               end)
                          (fun _ => gbind (done call) (fun _ => gret (fst rb))))))
     end).
Proof.
  destruct call as [l|].
  - destruct (negb (bool_decide (Error h = ""))).
    + apply evolving_bind; [by apply evolving_store_call|]. intros _.
      apply evolving_bind; [apply evolving_on_cc|]. intros rb.
      apply evolving_bind; [by apply evolving_done|]. intros _. apply evolving_gret.
    + apply evolving_bind; [apply evolving_load_call|]. intros c.
      apply evolving_bind; [apply evolving_on_cc|]. intros rb.
      apply evolving_bind.
      { destruct (snd rb); [by apply evolving_store_call|apply evolving_gret]. }
      intros _. apply evolving_bind.
      { destruct (fst rb); [by apply evolving_store_call|apply evolving_gret]. }
      intros _. apply evolving_bind; [by apply evolving_done|]. intros _.
      apply evolving_gret.
  - apply evolving_bind; [apply evolving_on_cc|]. intros rb. apply evolving_gret.
Qed.

(** A turn of the loop keeps the client in good order, and leaves
    [shutdown] as it is. *)
Lemma receive_turn_client_ok w (r : option (exit * error)) w' :
  client_ok w -> receive_turn fmt_Errorf w = Ret (r, w') ->
  client_ok w' /\ shutdown (client w') = shutdown (client w).
Proof.
  intros Hok. unfold receive_turn. intros (r0 & w1 & Hhdr & Hk)%gbind_inv.
  assert (Hw1 : evolves (fun _ => False) w w1) by (by eapply evolving_on_cc).
  assert (Hok1 : client_ok w1) by (by eapply evolves_client_ok).
  assert (Hs1 : shutdown (client w1) = shutdown (client w)) by apply Hw1.
  destruct r0 as [err|h].
  - unfold gret in Hk. by injection Hk as _ <-.
  - apply gbind_inv in Hk as (call & w2 & Hrm & Hk).
    rewrite removeCall_eq in Hrm. injection Hrm as <- <-.
    apply gbind_inv in Hk as (err & w3 & Hbody & Hk).
    unfold gret in Hk. injection Hk as _ <-.
    apply (evolving_receive_body h) in Hbody.
    split.
    + eapply evolves_client_ok; [by apply client_ok_removeCall|exact Hbody|].
      intros l Hl k. cbn. apply removed_not_pending; [apply Hok1|done].
    + destruct Hbody as (_ & Hs & _). by rewrite Hs.
Qed.


Lemma Close_client_ok w (e : option error) w' :
  client_ok w -> Close w = Ret (e, w') -> client_ok w'.
Proof.
  intros Hok Hrun. apply (evolves_client_ok (fun _ => False) w); [done| |tauto].
  assert (Hlocks : forall ch l, Send ch l ∉ [Lock mu; Unlock mu]).
  { intros ch l Hin. apply elem_of_cons in Hin as [?|Hin]; [done|].
    by apply list_elem_of_singleton in Hin. }
  destruct (closing (client w)) eqn:Hc.
  - rewrite (Close_closing _ Hc) in Hrun. injection Hrun as _ <-.
    by apply (evolves_quiet _ _ _ [Lock mu; Unlock mu]).
  - rewrite (Close_not_closing _ Hc) in Hrun. injection Hrun as _ <-.
    by apply (evolves_quiet _ _ _ [Lock mu; Unlock mu]).
Qed.

Lemma IsAvailable_client_ok w (b : bool) w' :
  client_ok w -> IsAvailable w = Ret (b, w') -> client_ok w'.
Proof.
  intros Hok Hrun. apply (evolves_client_ok (fun _ => False) w); [done| |tauto].
  rewrite IsAvailable_eq in Hrun. injection Hrun as _ <-.
  apply (evolves_quiet _ _ _ [Lock mu; Unlock mu]); try done.
  intros ch l Hin. apply elem_of_cons in Hin as [?|Hin]; [done|].
  by apply list_elem_of_singleton in Hin.
Qed.

Lemma terminateCalls_client_ok w err (a : unit) w' :
  client_ok w -> terminateCalls err w = Ret (a, w') -> client_ok w'.
Proof.
  intros Hok Hrun.
  assert (Hpend' : pending_ok w') by (eapply keeps_terminateCalls; [apply Hok|done]).
  destruct Hok as (Hpend & Halloc & _).
  rewrite terminateCalls_eq in Hrun.
  2:{ intros k l Hk. destruct (Hpend k l Hk) as (c & Hc & _). by eexists. }
  destruct a. injection Hrun as <-. split; [done|].
  split; [|intros Hs; cbn in Hs; discriminate Hs].
  assert (Hkept : forall l, is_Some (calls w !! l) ->
            is_Some (fail_all err (map_to_list (pending (client w))) (calls w) !! l)).
  { intros l [c Hc]. rewrite fail_all_lookup, Hc. by eexists. }
  intros ch l. cbn [trace calls].
  intros [Hin|Hin]%elem_of_app; [by apply Hkept, (Halloc ch)|].
  apply elem_of_cons in Hin as [?|Hin]; [done|].
  apply elem_of_cons in Hin as [?|Hin]; [done|].
  apply elem_of_app in Hin as [Hin|Hin].
  - apply signals_elem in Hin as (k & l' & c & _ & Hc & [= -> ->]).
    apply Hkept. by eexists.
  - apply elem_of_cons in Hin as [?|Hin]; [done|].
    by apply list_elem_of_singleton in Hin.
Qed.

(** Registering a call that is not in the table and has not been
    signalled, on an open client. *)
Lemma client_ok_registered w l (c : Call) :
  client_ok w ->
  calls w !! l = Some c ->
  (forall k, pending (client w) !! k <> Some l) ->
  (forall ch, Send ch l ∉ trace w) ->
  client_ok
    {| client := set_seq (uint64_incr (seq (client w)))
                   (set_pending (<[seq (client w) := l]> (pending (client w))) (client w));
       calls := <[l := set_Call_Seq (seq (client w)) c]> (calls w);
       chans := chans w;
       trace := trace w ++ [Lock mu; Unlock mu] |}.
Proof.
  intros (Hpend & Halloc & Hquiet) Hl Hfresh Hnew.
  assert (Hlocks : forall ch l', Send ch l' ∉ [Lock mu; Unlock mu]).
  { intros ch l' Hin. apply elem_of_cons in Hin as [?|Hin]; [done|].
    by apply list_elem_of_singleton in Hin. }
  split; [|split].
  - intros k l'. cbn. intros [[<- <-]|[Hne Hk]]%lookup_insert_Some.
    + rewrite lookup_insert_eq. by eexists.
    + destruct (Hpend k l' Hk) as (c' & Hc' & <-).
      rewrite lookup_insert_ne; [by exists c'|]. intros ->. by apply (Hfresh (Call_Seq c')).
  - intros ch l'. cbn. intros [Hin|Hin]%elem_of_app; [|by destruct (Hlocks ch l')].
    destruct (Halloc ch l' Hin) as [c' Hc'].
    destruct (decide (l = l')) as [->|Hne].
    + rewrite lookup_insert_eq. by eexists.
    + rewrite lookup_insert_ne by done. by eexists.
  - cbn. intros Hlive k l' Hk ch [Hin|Hin]%elem_of_app; [|by destruct (Hlocks ch l')].
    apply lookup_insert_Some in Hk as [[<- <-]|[Hne Hk]].
    + by apply (Hnew ch).
    + by apply (Hquiet Hlive k l' Hk ch).
Qed.

Lemma send_client_ok w l (c : Call) (a : unit) w' :
  client_ok w ->
  calls w !! l = Some c ->
  (forall k, pending (client w) !! k <> Some l) ->
  (forall ch, Send ch l ∉ trace w) ->
  send l w = Ret (a, w') -> client_ok w'.
Proof.
  intros Hok Hl Hfresh Hnew. unfold send.
  intros ([] & w1 & Hlock & Hk)%gbind_inv.
  assert (Hw1 : w1 = logged [Lock sending] w).
  { unfold emit in Hlock. by injection Hlock as <-. }
  subst w1. clear Hlock.
  assert (Hok1 : client_ok (logged [Lock sending] w)).
  { apply (evolves_client_ok (fun _ => False) w); [done| |tauto].
    apply (evolves_quiet _ _ _ [Lock sending]); try done.
    intros ch l' Hin. by apply list_elem_of_singleton in Hin. }
  assert (Hnew1 : forall ch, Send ch l ∉ trace (logged [Lock sending] w)).
  { intros ch. cbn. intros [Hin|Hin]%elem_of_app; [by apply (Hnew ch)|].
    by apply list_elem_of_singleton in Hin. }
  apply gbind_inv in Hk as ([s err] & w2 & Hreg & Hk).
  destruct (closing (client w) || shutdown (client w)) eqn:Hterm.
  - rewrite (registerCall_terminal (logged [Lock sending] w) l Hterm) in Hreg.
    injection Hreg as <- <- <-. cbn beta iota in Hk.
    apply (evolves_client_ok (fun l' => l' = l) (logged [Lock sending] w)); [done| |].
    + eapply evolves_trans.
      * apply (evolves_quiet _ _ (logged [Lock mu; Unlock mu] (logged [Lock sending] w))
                 [Lock mu; Unlock mu]); try done.
        intros ch l' Hin. apply elem_of_cons in Hin as [?|Hin]; [done|].
        by apply list_elem_of_singleton in Hin.
      * eapply evolving_run; [|exact Hk].
        apply evolving_bind; [by apply evolving_store_call|]. intros _.
        apply evolving_bind; [by apply evolving_done|]. intros _.
        by apply evolving_emit.
    + intros l' ->. exact Hfresh.
  - rewrite (registerCall_open (logged [Lock sending] w) l c Hterm Hl) in Hreg.
    injection Hreg as <- <- <-. cbn beta iota in Hk.
    pose proof (client_ok_registered _ _ _ Hok1 Hl Hfresh Hnew1) as Hok2.
    cbn [logged client calls chans trace] in Hok2, Hk.
    set (w2 := {| client := set_seq (uint64_incr (seq (client w)))
                              (set_pending (<[seq (client w) := l]> (pending (client w)))
                                 (client w));
                  calls := <[l := set_Call_Seq (seq (client w)) c]> (calls w);
                  chans := chans w;
                  trace := (trace w ++ [Lock sending]) ++ [Lock mu; Unlock mu] |}) in *.
    apply gbind_inv in Hk as (c1 & w3 & H3 & Hk).
    apply gbind_inv in Hk as ([] & w4 & H4 & Hk).
    apply gbind_inv in Hk as ([] & w5 & H5 & Hk).
    apply gbind_inv in Hk as ([] & w6 & H6 & Hk).
    apply gbind_inv in Hk as (cl & w7 & H7 & Hk).
    apply gbind_inv in Hk as (werr & w8 & H8 & Hk).
    assert (Hev : evolves (fun _ => False) w2 w8).
    { pose proof (evolving_load_call (fun _ => False) _ _ _ _ H3) as E3.
      pose proof (evolves_update (fun _ => False) _ _ _ _ H4
                    (fun _ => eq_refl) (fun _ => eq_refl)) as E4.
      pose proof (evolves_update (fun _ => False) _ _ _ _ H5
                    (fun _ => eq_refl) (fun _ => eq_refl)) as E5.
      pose proof (evolves_update (fun _ => False) _ _ _ _ H6
                    (fun _ => eq_refl) (fun _ => eq_refl)) as E6.
      pose proof (evolving_the_client (fun _ => False) _ _ _ H7) as E7.
      pose proof (evolving_on_cc (fun _ => False) _ _ _ _ H8) as E8.
      exact (evolves_trans _ _ _ _ E3
               (evolves_trans _ _ _ _ E4
                  (evolves_trans _ _ _ _ E5
                     (evolves_trans _ _ _ _ E6 (evolves_trans _ _ _ _ E7 E8))))). }
    assert (Hok8 : client_ok w8) by (eapply evolves_client_ok; [exact Hok2|exact Hev|tauto]).
    assert (Hp8 : pending (client w8) !! seq (client w) = Some l).
    { destruct Hev as (-> & _). cbn. apply lookup_insert_eq. }
    apply gbind_inv in Hk as ([] & w9 & H9 & Hk).
    assert (Hok9 : client_ok w9).
    { destruct werr as [e|].
      - apply gbind_inv in H9 as (call' & w10 & Hrm & H9).
        rewrite removeCall_eq in Hrm. injection Hrm as <- <-. rewrite Hp8 in H9.
        eapply (evolves_client_ok (fun l' => l' = l)); [by apply client_ok_removeCall| |].
        + eapply evolving_run; [|exact H9].
          apply evolving_bind; [by apply evolving_store_call|]. intros _.
          by apply evolving_done.
        + intros l' -> k. cbn. apply removed_not_pending; [apply Hok8|done].
      - unfold gret in H9. by injection H9 as <-. }
    apply (evolves_client_ok (fun _ => False) w9); [done| |tauto].
    eapply evolving_run; [|exact Hk]. by apply evolving_emit.
Qed.

Lemma Go_client_ok (sm : string) (args : Body) (reply : option (option Body))
    (d : option chan) w (call : loc) w' :
  client_ok w -> Go sm args reply d w = Ret (call, w') -> client_ok w'.
Proof.
  intros Hok. unfold Go.
  intros (ch & w1 & Hd & H)%gbind_inv.
  assert (Hw1 : evolves (fun _ => False) w w1).
  { apply (evolves_quiet _ _ _ []).
    1-4: destruct d as [ch0|];
      [apply gbind_inv in Hd as (n & w0 & Hcap & Hd); unfold cap in Hcap;
       destruct (chans w !! ch0) as [n0|]; [|done]; injection Hcap as <- <-;
       destruct (n0 =? 0)%nat; [done|]; unfold gret in Hd; injection Hd as <- <-
      |unfold make_chan in Hd; injection Hd as <- <-]; cbn; by rewrite ?app_nil_r.
    intros ch' l Hin. by apply elem_of_nil in Hin. }
  assert (Hok1 : client_ok w1) by (eapply evolves_client_ok; [exact Hok|exact Hw1|tauto]).
  clear Hd Hw1 Hok.
  apply gbind_inv in H as (l & w2 & Hnew & H).
  unfold new_call in Hnew. injection Hnew as <- <-.
  apply gbind_inv in H as ([] & w3 & Hsend & H). unfold gret in H. injection H as _ <-.
  assert (Hfresh : calls w1 !! fresh (dom (calls w1)) = None).
  { apply not_elem_of_dom, is_fresh. }
  destruct Hok1 as (Hpend & Halloc & Hquiet).
  match type of Hsend with
  | send ?l ?w2 = _ => eapply (send_client_ok w2 l _ tt w3)
  end; [|apply lookup_insert_eq| | |exact Hsend].
  - split; [|split].
    + intros k l Hk. cbn in *. destruct (Hpend k l Hk) as (c & Hc & <-).
      exists c. split; [|done]. rewrite lookup_insert_ne; [done|]. congruence.
    + intros ch' l Hin. cbn in *. destruct (Halloc ch' l Hin) as [c Hc].
      rewrite lookup_insert_ne; [by eexists|]. congruence.
    + exact Hquiet.
  - intros k Hk. cbn in Hk. destruct (Hpend k _ Hk) as (c & Hc & _). congruence.
  - intros ch' Hin. cbn in Hin. destruct (Halloc ch' _ Hin) as [c Hc]. congruence.
Qed.

(** Every world a client gets into is in good order. *)
Lemma reachable_client_ok w : reachable fmt_Errorf w -> client_ok w.
Proof.
  induction 1 as [c o cs chs|w sm args reply d call w' _ IH HGo|w r w' _ IH Hturn
                 |w e w' _ IH HClose|w b w' _ IH Hav|w err a w' _ IH Hterm].
  - split; [|split].
    + intros k l Hk. cbn in Hk. by rewrite lookup_empty in Hk.
    + intros ch l Hin. by apply elem_of_nil in Hin.
    + intros _ k l Hk. cbn in Hk. by rewrite lookup_empty in Hk.
  - by eapply Go_client_ok.
  - by eapply receive_turn_client_ok.
  - by eapply Close_client_ok.
  - by eapply IsAvailable_client_ok.
  - by eapply terminateCalls_client_ok.
Qed.

End SignalInvariant.

(** *** [receive] on a failed header read *)

Section ReceiveProps.
Import codec client_go.
Context {C Body : Type} `{!Codec C Body}.
Variable fmt_Errorf : string -> error.

Implicit Types (w : World (C := C) (Body := Body)) (l : loc).




End ReceiveProps.

Section ReceiveExample.
Import codec client_go.



End ReceiveExample.

(** * Further properties of the code *)

(** ** The registry: what is recorded, and under which names *)

Section RegistryExact.
Import reflect service_go server_go server_life.
Variable decls : string -> string -> list MethodDecl.

Lemma is_error_type_spec (t : Type_) : is_error_type t = true <-> t = ErrorT.
Proof. destruct t; cbn; split; congruence. Qed.

(** The descriptor of a method, and the conditions under which the loop
    of [registerMethods] stores one. *)
Lemma eligible_Some (m : Method) (mt : methodType) :
  eligible m = Some mt <->
  NumIn (Method_Type m) = 3%nat /\ NumOut (Method_Type m) = 1%nat /\
  Out (Method_Type m) 0 = ErrorT /\
  isExportedOrBuiltinType (In_ (Method_Type m) 1) = true /\
  isExportedOrBuiltinType (In_ (Method_Type m) 2) = true /\
  mt = {| method := m; ArgType := In_ (Method_Type m) 1;
          ReplyType := In_ (Method_Type m) 2 |}.
Proof.
  unfold eligible.
  destruct (Nat.eqb_spec (NumIn (Method_Type m)) 3) as [Hin|Hin]; cbn [andb].
  2:{ split; [done|]. by intros [? _]. }
  destruct (Nat.eqb_spec (NumOut (Method_Type m)) 1) as [Hout|Hout]; cbn [andb].
  2:{ split; [done|]. by intros (_ & ? & _). }
  destruct (is_error_type (Out (Method_Type m) 0)) eqn:Herr; cbn [andb].
  2:{ split; [done|]. intros (_ & _ & He & _). apply is_error_type_spec in He. congruence. }
  apply is_error_type_spec in Herr.
  destruct (isExportedOrBuiltinType (In_ (Method_Type m) 1)) eqn:Ha; cbn [andb].
  2:{ split; [done|]. by intros (_ & _ & _ & ? & _). }
  destruct (isExportedOrBuiltinType (In_ (Method_Type m) 2)) eqn:Hr.
  2:{ split; [done|]. by intros (_ & _ & _ & _ & ? & _). }
  split.
  - intros [= <-]. done.
  - intros (_ & _ & _ & _ & _ & ->). done.
Qed.

(** What reflect lists for a type are exported methods that take a value
    of the type as their receiver. *)
Lemma Methods_exported (t : Type_) (m : Method) :
  m ∈ Methods decls t ->
  ast_IsExported (Method_Name m) = true /\ In_ (Method_Type m) 0 = t.
Proof.
  unfold Methods. intros (md & -> & Hmd)%list_elem_of_fmap. cbn. split; [|done].
  unfold method_set in Hmd. destruct t as [| |pkg nm u|e| | | | | |]; try by apply elem_of_nil in Hmd.
  - apply list_elem_of_filter in Hmd as [Hp _]. by apply andb_true_iff in Hp as [? _].
  - destruct e; try by apply elem_of_nil in Hmd.
    by apply list_elem_of_filter in Hmd as [Hp _].
Qed.


(** What [newService] returns when it returns. *)
Lemma newService_Ret (r : iface) (h : Heap) (s : service) :
  newService decls r h = Ret s ->
  exists ty, TypeOf r = Some ty /\ typ s = ty /\ rcvr s = ValueOf r /\
             ast_IsExported (name s) = true /\
             method_map s = fold_left registerMethod (Methods decls ty) ∅.
Proof.
  unfold newService.
  destruct (Indirect (ValueOf r) h) as [iv| |]; [|done|done].
  destruct (Value_Type iv) as [t| |]; [|done|done].
  destruct (TypeOf r) as [ty|]; [|done].
  destruct (ast_IsExported (Name t)) eqn:Hexp; [|done]. cbn [negb].
  intros [= <-]. exists ty. by cbn.
Qed.

(** X2. On a server made by [NewServer] and [Register] calls, every
    service is stored under its own name, which is exported, and every
    descriptor under the name of its method, which is an exported method of
    the registered receiver's type taking that receiver first, then the
    argument and the reply, and returning one [error]. *)
Theorem built_server_holds_named_services_and_eligible_methods
    (server : Server) (k n : string) (s : service) (mt : methodType)
    (Hbuilt : built decls server)
    (Hs : serviceMap server !! k = Some s)
    (Hm : method_map s !! n = Some mt) :
  name s = k /\ ast_IsExported k = true /\
  Method_Name (method mt) = n /\ ast_IsExported n = true /\
  method mt ∈ Methods decls (typ s) /\
  Method_Type (method mt) = FuncT [typ s; ArgType mt; ReplyType mt] [ErrorT] /\
  isExportedOrBuiltinType (ArgType mt) = true /\
  isExportedOrBuiltinType (ReplyType mt) = true.
Proof.
  revert k s Hs Hm. induction Hbuilt as [|server rcvr h e server' _ IH Hreg];
    intros k s Hs Hm.
  - cbn in Hs. by rewrite lookup_empty in Hs.
  - unfold Register in Hreg.
    destruct (newService decls rcvr h) as [s0| |] eqn:Hnew; [|done|done].
    destruct (serviceMap server !! name s0) eqn:Hold.
    + injection Hreg as _ <-. by apply IH.
    + injection Hreg as _ <-. cbn [serviceMap] in Hs.
      apply lookup_insert_Some in Hs as [[<- <-]|[_ Hs]]; [|by apply IH].
      apply newService_Ret in Hnew as (ty & _ & Hty & _ & Hexp & Hmap).
      rewrite Hmap in Hm.
      apply fold_registerMethod_sound in Hm as [Hempty|(m & Hin & Hn & Hel)].
      { by rewrite lookup_empty in Hempty. }
      apply eligible_Some in Hel as (Hni & Hno & Hout & Ha & Hr & ->).
      cbn [method ArgType ReplyType]. rewrite Hty.
      destruct (Methods_exported _ _ Hin) as [Hmexp Hrecv].
      split; [done|]. split; [done|]. split; [done|]. split; [by rewrite <- Hn|].
      split; [done|]. split; [|done].
      unfold NumIn, NumOut, In_, Out in *.
      destruct (Method_Type m) as [| | | | | | | |ins outs|]; try done. cbn in *.
      destruct ins as [|i0 [|i1 [|i2 [|]]]]; try done.
      destruct outs as [|o0 [|]]; try done. cbn in *. congruence.
Qed.

End RegistryExact.


Lemma foo_server_built : server_life.built demo.main_decls demo_server.foo_server.
Proof.
  eapply (server_life.built_Register _ server_go.NewServer demo.foo_ptr demo.main_heap None).
  - apply server_life.built_NewServer.
  - vm_compute. reflexivity.
Qed.

(** The server of main.go holds ["Foo"] with ["Sum"]. *)
Lemma foo_server_holds_Foo_Sum :
  server_go.serviceMap demo_server.foo_server !! "Foo" = Some demo_server.foo_service /\
  service_go.method_map demo_server.foo_service !! "Sum" = Some demo_server.Sum_method /\
  service_go.name demo_server.foo_service = "Foo" /\ ast_IsExported "Foo" = true /\
  reflect.Method_Name (service_go.method demo_server.Sum_method) = "Sum" /\
  ast_IsExported "Sum" = true /\
  service_go.method demo_server.Sum_method
    ∈ reflect.Methods demo.main_decls (service_go.typ demo_server.foo_service) /\
  reflect.Method_Type (service_go.method demo_server.Sum_method) =
    reflect.FuncT [service_go.typ demo_server.foo_service;
                   service_go.ArgType demo_server.Sum_method;
                   service_go.ReplyType demo_server.Sum_method] [reflect.ErrorT] /\
  service_go.isExportedOrBuiltinType (service_go.ArgType demo_server.Sum_method) = true /\
  service_go.isExportedOrBuiltinType (service_go.ReplyType demo_server.Sum_method) = true.
Proof.
  assert (Hs : server_go.serviceMap demo_server.foo_server !! "Foo"
               = Some demo_server.foo_service) by (vm_compute; reflexivity).
  assert (Hm : service_go.method_map demo_server.foo_service !! "Sum"
               = Some demo_server.Sum_method) by (vm_compute; reflexivity).
  split; [exact Hs|]. split; [exact Hm|].
  exact (built_server_holds_named_services_and_eligible_methods demo.main_decls
           demo_server.foo_server "Foo" "Sum" demo_server.foo_service
           demo_server.Sum_method foo_server_built Hs Hm).
Defined.

(** ** [Register] at the edges *)

Section RegisterEdges.
Import reflect service_go server_go.
Variable decls : string -> string -> list MethodDecl.


(** X4. [Register] stores with [LoadOrStore]: the first service of a
    name stays. When [Register] returns, every service that was in the map
    is still there; it returns nil exactly when the name was free, and the
    map then holds the new service under its name and is otherwise as
    before; if the name was taken the server is left as it was; and
    registering the same receiver once more fails with "service already
    defined", whichever case it was. *)
Theorem Register_keeps_the_first_service_of_a_name
    (r : iface) (h : Heap) (server server' : Server) (e : option error)
    (Hrun : Register decls r h server = Ret (e, server')) :
  (forall k s, serviceMap server !! k = Some s -> serviceMap server' !! k = Some s) /\
  exists s,
    newService decls r h = Ret s /\
    (e = None <-> serviceMap server !! name s = None) /\
    (e = None -> serviceMap server' = <[name s := s]> (serviceMap server)) /\
    (e <> None ->
       e = Some (errors_New ("rpc: service already defined: " ++ name s)) /\
       server' = server) /\
    Register decls r h server' =
      Ret (Some (errors_New ("rpc: service already defined: " ++ name s)), server').
Proof.
  unfold Register in *.
  destruct (newService decls r h) as [s| |] eqn:Hnew; [|done|done].
  destruct (serviceMap server !! name s) as [s1|] eqn:Hold.
  - injection Hrun as <- <-. split; [done|]. exists s. split; [done|].
    rewrite Hold. split; [by split|]. split; [done|]. by split.
  - injection Hrun as <- <-. split.
    + intros k s1 Hk. cbn. rewrite lookup_insert_ne; [done|]. congruence.
    + exists s. split; [done|]. rewrite Hold. split; [by split|]. split; [done|].
      split; [done|]. cbn. by rewrite lookup_insert_eq.
Qed.
End RegisterEdges.


(** [Register(&foo)] twice: nil, then "service already defined: Foo". *)
Lemma Register_foo_twice :
  server_go.Register demo.main_decls demo.foo_ptr demo.main_heap server_go.NewServer
    = Ret (None, demo_server.foo_server) /\
  (forall k s, server_go.serviceMap server_go.NewServer !! k = Some s ->
               server_go.serviceMap demo_server.foo_server !! k = Some s) /\
  exists s,
    service_go.newService demo.main_decls demo.foo_ptr demo.main_heap = Ret s /\
    ((None : option error) = None <-> server_go.serviceMap server_go.NewServer !! service_go.name s = None) /\
    ((None : option error) = None ->
       server_go.serviceMap demo_server.foo_server
       = <[service_go.name s := s]> (server_go.serviceMap server_go.NewServer)) /\
    ((None : option error) <> None ->
       (None : option error)
       = Some (errors_New ("rpc: service already defined: " ++ service_go.name s)) /\
       demo_server.foo_server = server_go.NewServer) /\
    server_go.Register demo.main_decls demo.foo_ptr demo.main_heap demo_server.foo_server =
      Ret (Some (errors_New ("rpc: service already defined: " ++ service_go.name s)),
           demo_server.foo_server).
Proof.
  assert (Hrun : server_go.Register demo.main_decls demo.foo_ptr demo.main_heap
                   server_go.NewServer = Ret (None, demo_server.foo_server))
    by (vm_compute; reflexivity).
  split; [exact Hrun|].
  exact (Register_keeps_the_first_service_of_a_name demo.main_decls demo.foo_ptr
           demo.main_heap server_go.NewServer demo_server.foo_server None Hrun).
Defined.

(** ** What [findService] resolves *)

Section FindServiceSound.
Import service_go server_go.

(** A string with a ['.'] is a prefix, the last ['.'], and a rest
    without one. *)
Lemma split_at_last_dot (s : string) :
  dotless s = false -> exists a b, s = a ++ "." ++ b /\ dotless b = true.
Proof.
  induction s as [|c s IH]; [done|]. cbn [dotless].
  destruct (dotless s) eqn:Hs.
  - rewrite andb_true_r. intros Hc%negb_false_iff. apply Ascii.eqb_eq in Hc as ->.
    by exists "", s.
  - intros _. destruct IH as (a & b & -> & Hb); [done|].
    by exists (String c a), b.
Qed.

(** X5. Whatever [findService] resolves without an error was asked for
    by name: the request string is the name the service is stored under, a
    ['.'], and the name the method is stored under, which holds no ['.'].
    It returns a method only together with its service and a nil error, and
    an error whenever the service or the method is missing. *)
Theorem findService_resolves_only_what_was_asked
    (server : Server) (serviceMethod : string) :
  match findService server serviceMethod with
  | (Some svc, Some mtype, None) =>
      exists a b, serviceMethod = a ++ "." ++ b /\ dotless b = true /\
                  serviceMap server !! a = Some svc /\ method_map svc !! b = Some mtype
  | (Some svc, None, Some e) =>
      exists a b, serviceMethod = a ++ "." ++ b /\ dotless b = true /\
                  serviceMap server !! a = Some svc /\ method_map svc !! b = None /\
                  e = errors_New ("rpc server: can't find method " ++ b)
  | (None, None, Some e) =>
      (dotless serviceMethod = true /\
       e = errors_New ("rpc server: service/method request ill-formed: " ++ serviceMethod)) \/
      (exists a b, serviceMethod = a ++ "." ++ b /\ dotless b = true /\
                   serviceMap server !! a = None /\
                   e = errors_New ("rpc server:can't find service " ++ a))
  | _ => False
  end.
Proof.
  destruct (dotless serviceMethod) eqn:Hdots.
  - unfold findService. rewrite strings_LastIndex_dotless by done. cbn. by left.
  - destruct (split_at_last_dot _ Hdots) as (a & b & -> & Hb).
    rewrite findService_dotted by done.
    destruct (serviceMap server !! a) as [svc|] eqn:Ha.
    + destruct (method_map svc !! b) as [mtype|] eqn:Hm.
      * by exists a, b.
      * by exists a, b.
    + right. by exists a, b.
Qed.
End FindServiceSound.

(** ** [send]: the three ways it ends *)

Section SendProps.
Import codec client_go client_calls.
Context {C Body : Type} `{!Codec C Body}.

Implicit Types (w : World (C := C) (Body := Body)) (l : loc).

Ltac step_rpc :=
  unfold emit, the_client, update, load_call, store_call, gret, gbind, gpanic;
  rewrite ?on_cc_eq;
  cbn [client calls chans trace with_client fst snd
       cc opt header seq pending closing shutdown
       set_cc set_header set_seq set_pending set_closing set_shutdown].

(** X6. [send] on a client that is closing or shut down: the call
    fails with [ErrShutdown] and is signalled on its [Done], once; the
    client is left exactly as it was (nothing is written to the codec, no
    sequence number is used, the table is not touched); [sending] is held
    from beginning to end and [mu] inside it. *)
Theorem send_on_terminal_client_fails_the_call w l (c : Call)
    (Hterminal : closing (client w) || shutdown (client w) = true)
    (Hcall : calls w !! l = Some c) :
  send l w =
    Ret (tt, {| client := client w;
                calls := <[l := set_Call_Error (Some ErrShutdown) c]> (calls w);
                chans := chans w;
                trace := trace w ++ [Lock sending; Lock mu; Unlock mu;
                                     Send (Done c) l; Unlock sending] |}).
Proof.
  unfold send.
  rewrite (gbind_Ret (emit (Lock sending)) _ w (logged [Lock sending] w) tt eq_refl).
  rewrite (gbind_Ret _ _ _ _ _ (registerCall_terminal (logged [Lock sending] w) l Hterminal)).
  unfold done, logged. step_rpc. rewrite Hcall. step_rpc.
  rewrite lookup_insert_eq. step_rpc.
  do 2 f_equal. f_equal. by rewrite <- !app_assoc.
Qed.

(** X7. [send] on an open client whose codec fails to write: the call
    has been given the counter's value and the counter has moved on; the
    header written carries the call's method, that sequence number and no
    error; the call is taken out of the table again, fails with the error
    [Write] returned, and is signalled on its [Done], once. *)
Theorem send_write_failure_unregisters_and_fails_the_call w l (c : Call) (e : error)
    (Hopen : closing (client w) || shutdown (client w) = false)
    (Hcall : calls w !! l = Some c)
    (Hwrite : fst (Write (request_header c (seq (client w))) (Args c) (cc (client w)))
              = Some e) :
  exists w',
    send l w = Ret (tt, w') /\
    seq (client w') = uint64_incr (seq (client w)) /\
    pending (client w') = delete (seq (client w)) (pending (client w)) /\
    cc (client w') =
      snd (Write (request_header c (seq (client w))) (Args c) (cc (client w))) /\
    closing (client w') = closing (client w) /\
    shutdown (client w') = shutdown (client w) /\
    calls w' = <[l := set_Call_Error (Some e) (set_Call_Seq (seq (client w)) c)]> (calls w) /\
    chans w' = chans w /\
    trace w' = (trace w ++ [Lock sending; Lock mu; Unlock mu; Lock mu; Unlock mu;
                            Send (Done c) l; Unlock sending])%list.
Proof.
  unfold send.
  rewrite (gbind_Ret (emit (Lock sending)) _ w (logged [Lock sending] w) tt eq_refl).
  rewrite (gbind_Ret _ _ _ _ _ (registerCall_open (logged [Lock sending] w) l c Hopen Hcall)).
  unfold logged. step_rpc. rewrite lookup_insert_eq. step_rpc.
  cbn [ServiceMethod Seq Error Call_ServiceMethod Args set_Call_Seq].
  fold (request_header c (seq (client w))).
  rewrite Hwrite. rewrite removeCall_eq.
  unfold logged, done. step_rpc. rewrite lookup_insert_eq. step_rpc.
  rewrite !lookup_insert_eq. step_rpc. rewrite !lookup_insert_eq. step_rpc.
  eexists. split; [reflexivity|]. cbn.
  split; [done|]. split; [by rewrite delete_insert_eq|]. split; [done|].
  split; [done|]. split; [done|]. split; [by rewrite insert_insert_eq|].
  split; [done|]. by rewrite <- !app_assoc.
Qed.

(** X8. [send] on an open client whose codec writes: the call is in
    the table under the counter's value, which it carries as its [Seq], and
    the counter has moved on; [client.header] is the header that was
    written, with the call's method, that sequence number and no error, and
    the body written is the call's [Args]; the call has no error and is not
    signalled. *)
Theorem send_registers_then_writes_the_request w l (c : Call)
    (Hopen : closing (client w) || shutdown (client w) = false)
    (Hcall : calls w !! l = Some c)
    (Hwrite : fst (Write (request_header c (seq (client w))) (Args c) (cc (client w)))
              = None) :
  send l w =
    Ret (tt,
         {| client :=
              {| cc := snd (Write (request_header c (seq (client w))) (Args c)
                              (cc (client w)));
                 opt := opt (client w);
                 header := request_header c (seq (client w));
                 seq := uint64_incr (seq (client w));
                 pending := <[seq (client w) := l]> (pending (client w));
                 closing := closing (client w);
                 shutdown := shutdown (client w) |};
            calls := <[l := set_Call_Seq (seq (client w)) c]> (calls w);
            chans := chans w;
            trace := trace w ++ [Lock sending; Lock mu; Unlock mu; Unlock sending] |}).
Proof.
  unfold send.
  rewrite (gbind_Ret (emit (Lock sending)) _ w (logged [Lock sending] w) tt eq_refl).
  rewrite (gbind_Ret _ _ _ _ _ (registerCall_open (logged [Lock sending] w) l c Hopen Hcall)).
  unfold logged. step_rpc. rewrite lookup_insert_eq. step_rpc.
  cbn [ServiceMethod Seq Error Call_ServiceMethod Args set_Call_Seq].
  fold (request_header c (seq (client w))).
  rewrite Hwrite. step_rpc. do 2 f_equal. f_equal. by rewrite <- !app_assoc.
Qed.
End SendProps.

Section SendExamples.
Import codec client_go client_calls.

Ltac run := vm_compute; reflexivity.

(** After [Close], [send] fails the call with [ErrShutdown] at once. *)
Lemma send_after_Close :
  closing (client script.closed_with_call) || shutdown (client script.closed_with_call)
    = true /\
  send 1%positive script.closed_with_call =
    Ret (tt, {| client := client script.closed_with_call;
                calls := <[1%positive := set_Call_Error (Some ErrShutdown) script.a_call]>
                           (calls script.closed_with_call);
                chans := chans script.closed_with_call;
                trace := trace script.closed_with_call ++
                         [Lock sending; Lock mu; Unlock mu;
                          Send (Done script.a_call) 1%positive; Unlock sending] |}).
Proof.
  split; [reflexivity|].
  exact (send_on_terminal_client_fails_the_call script.closed_with_call 1%positive
           script.a_call eq_refl eq_refl).
Defined.

(** On a broken connection the call is failed with the write error and
    leaves the table; the sequence number 1 is used up. *)
Lemma send_on_broken_connection :
  fst (Write (request_header script.a_call 1) "1+2" (cc (client (script.with_call true))))
    = Some (errors_New "write: broken pipe") /\
  exists w',
    send 1%positive (script.with_call true) = Ret (tt, w') /\
    seq (client w') = uint64_incr (seq (client (script.with_call true))) /\
    pending (client w') =
      delete (seq (client (script.with_call true)))
        (pending (client (script.with_call true))) /\
    cc (client w') =
      snd (Write (request_header script.a_call (seq (client (script.with_call true))))
             (Args script.a_call) (cc (client (script.with_call true)))) /\
    closing (client w') = closing (client (script.with_call true)) /\
    shutdown (client w') = shutdown (client (script.with_call true)) /\
    calls w' =
      <[1%positive := set_Call_Error (Some (errors_New "write: broken pipe"))
                        (set_Call_Seq (seq (client (script.with_call true))) script.a_call)]>
        (calls (script.with_call true)) /\
    chans w' = chans (script.with_call true) /\
    trace w' = (trace (script.with_call true) ++
                [Lock sending; Lock mu; Unlock mu; Lock mu; Unlock mu;
                 Send (Done script.a_call) 1%positive; Unlock sending])%list.
Proof.
  split; [reflexivity|].
  exact (send_write_failure_unregisters_and_fails_the_call (script.with_call true)
           1%positive script.a_call (errors_New "write: broken pipe")
           eq_refl eq_refl eq_refl).
Defined.

(** On a working connection the request goes out under sequence number 1
    and the call waits in the table. *)
Lemma send_on_working_connection :
  script.outgoing (cc (client (script.with_call false))) = [] /\
  exists w',
    send 1%positive (script.with_call false) = Ret (tt, w') /\
    script.outgoing (cc (client w')) =
      [({| ServiceMethod := "Foo.Sum"; Seq := 1; Error := "" |}, "1+2")] /\
    pending (client w') = {[ 1 := 1%positive ]} /\
    seq (client w') = 2 /\
    trace w' = [Lock sending; Lock mu; Unlock mu; Unlock sending].
Proof.
  split; [reflexivity|]. eexists. split.
  - exact (send_registers_then_writes_the_request (script.with_call false) 1%positive
             script.a_call eq_refl eq_refl eq_refl).
  - split; [reflexivity|]. split; [|split; reflexivity].
    cbn. by rewrite insert_empty.
Defined.
End SendExamples.

(** ** One response, as the loop of [receive] handles it *)

Section ReceiveTurnProps.
Import codec client_go.
Context {C Body : Type} `{!Codec C Body}.
Variable fmt_Errorf : string -> error.

Implicit Types (w : World (C := C) (Body := Body)) (l : loc).

Ltac step_rpc :=
  unfold emit, the_client, update, load_call, store_call, gret, gbind, gpanic;
  rewrite ?on_cc_eq;
  cbn [client calls chans trace with_client fst snd
       cc opt header seq pending closing shutdown
       set_cc set_header set_seq set_pending set_closing set_shutdown].

(** X9. A response without an error, for a call that is pending and
    has a reply slot: the call leaves the table, under [mu]; the body is
    decoded into its [Reply]; if that failed, the call's [Error] is
    "reading body " and the decoder's message, and the loop ends with the
    decoder's error; and the call is signalled on its [Done] once, after
    the stores, whether the body could be read or not. *)
Theorem receive_turn_delivers_the_reply w l (c : Call) (h : Header) (r : option Body)
    (c1 c2 : C) (oe : option error) (ov : option Body)
    (Hheader : ReadHeader (cc (client w)) = (inr h, c1))
    (Hpending : pending (client w) !! Seq h = Some l)
    (Hcall : calls w !! l = Some c)
    (Hnoerror : Error h = "")
    (Hslot : Reply c = Some r)
    (Hbody : ReadBody true c1 = ((oe, ov), c2)) :
  receive_turn fmt_Errorf w =
    Ret (match oe with Some e => Some (BodyReadFailed, e) | None => None end,
         {| client := {| cc := c2; opt := opt (client w); header := header (client w);
                         seq := seq (client w);
                         pending := delete (Seq h) (pending (client w));
                         closing := closing (client w);
                         shutdown := shutdown (client w) |};
            calls :=
              <[l := {| Call_Seq := Call_Seq c;
                        Call_ServiceMethod := Call_ServiceMethod c;
                        Args := Args c;
                        Reply := match ov with Some v => Some (Some v) | None => Reply c end;
                        Call_Error :=
                          match oe with
                          | Some e => Some (errors_New ("reading body " ++ Error_msg e))
                          | None => Call_Error c
                          end;
                        Done := Done c |}]> (calls w);
            chans := chans w;
            trace := trace w ++ [Lock mu; Unlock mu; Send (Done c) l] |}).
Proof.
  unfold receive_turn.
  rewrite (gbind_Ret (on_cc ReadHeader) _ w
             (with_client (set_cc c1) w) (inr h)) by (by rewrite on_cc_eq, Hheader).
  rewrite (gbind_Ret _ _ _ _ _ (removeCall_eq _ _)).
  cbn [with_client client pending set_cc]. rewrite Hpending.
  rewrite bool_decide_eq_true_2 by done. cbn [negb].
  unfold done, logged. step_rpc. rewrite Hcall. step_rpc.
  rewrite Hslot, bool_decide_eq_true_2 by done. rewrite Hbody. cbn [fst snd].
  destruct c as [cs csm ca cr ce cd]. cbn in Hslot. subst cr.
  destruct ov as [v|], oe as [e|]; step_rpc; rewrite ?Hcall; step_rpc;
    rewrite ?lookup_insert_eq; step_rpc; rewrite ?lookup_insert_eq; step_rpc;
    rewrite ?insert_insert_eq; cbn; rewrite <- ?app_assoc; try done.
  all: rewrite ?Hcall; cbn; rewrite <- ?app_assoc; try done.
  by rewrite (insert_id _ _ _ Hcall).
Qed.

(** X10. A response that carries an error, for a call that is
    pending: the call leaves the table; its [Error] is [fmt.Errorf] of the
    header's [Error]; the body is read and thrown away, the [Reply] left as
    it is; the call is signalled on its [Done] once; the loop goes on unless
    reading the body failed. *)
Theorem receive_turn_fails_the_call_with_the_header_error w l (c : Call) (h : Header)
    (c1 c2 : C) (oe : option error) (ov : option Body)
    (Hheader : ReadHeader (cc (client w)) = (inr h, c1))
    (Hpending : pending (client w) !! Seq h = Some l)
    (Hcall : calls w !! l = Some c)
    (Herror : Error h <> "")
    (Hbody : ReadBody false c1 = ((oe, ov), c2)) :
  receive_turn fmt_Errorf w =
    Ret (match oe with Some e => Some (BodyReadFailed, e) | None => None end,
         {| client := {| cc := c2; opt := opt (client w); header := header (client w);
                         seq := seq (client w);
                         pending := delete (Seq h) (pending (client w));
                         closing := closing (client w);
                         shutdown := shutdown (client w) |};
            calls := <[l := set_Call_Error (Some (fmt_Errorf (Error h))) c]> (calls w);
            chans := chans w;
            trace := trace w ++ [Lock mu; Unlock mu; Send (Done c) l] |}).
Proof.
  unfold receive_turn.
  rewrite (gbind_Ret (on_cc ReadHeader) _ w
             (with_client (set_cc c1) w) (inr h)) by (by rewrite on_cc_eq, Hheader).
  rewrite (gbind_Ret _ _ _ _ _ (removeCall_eq _ _)).
  cbn [with_client client pending set_cc]. rewrite Hpending.
  rewrite bool_decide_eq_false_2 by done. cbn [negb].
  unfold done, logged. step_rpc. rewrite Hcall. step_rpc. rewrite Hbody. cbn [fst snd].
  rewrite lookup_insert_eq. step_rpc. cbn. rewrite <- !app_assoc.
  by destruct oe.
Qed.

(** X11. A response for a sequence number that is not in the table:
    the body is read and thrown away; no call is changed, none is
    signalled, and the table is as it was. *)
Theorem receive_turn_drops_an_unexpected_response w (h : Header)
    (c1 c2 : C) (oe : option error) (ov : option Body)
    (Hheader : ReadHeader (cc (client w)) = (inr h, c1))
    (Hpending : pending (client w) !! Seq h = None)
    (Hbody : ReadBody false c1 = ((oe, ov), c2)) :
  receive_turn fmt_Errorf w =
    Ret (match oe with Some e => Some (BodyReadFailed, e) | None => None end,
         {| client := {| cc := c2; opt := opt (client w); header := header (client w);
                         seq := seq (client w);
                         pending := pending (client w);
                         closing := closing (client w);
                         shutdown := shutdown (client w) |};
            calls := calls w;
            chans := chans w;
            trace := trace w ++ [Lock mu; Unlock mu] |}).
Proof.
  unfold receive_turn.
  rewrite (gbind_Ret (on_cc ReadHeader) _ w
             (with_client (set_cc c1) w) (inr h)) by (by rewrite on_cc_eq, Hheader).
  rewrite (gbind_Ret _ _ _ _ _ (removeCall_eq _ _)).
  cbn [with_client client pending set_cc]. rewrite Hpending.
  unfold logged. step_rpc. rewrite Hbody. cbn [fst snd].
  rewrite delete_id by done. by destruct oe.
Qed.
End ReceiveTurnProps.

Section ReceiveTurnExamples.
Import codec client_go.

Ltac run := vm_compute; reflexivity.

(** The peer's first frame answers call 1: the reply is stored, the call
    signalled, and call 2 stays in the table. *)
Lemma first_answer_is_delivered :
  pending (client script.two_sent) !! 1 = Some 1%positive /\
  calls script.two_sent !! 1%positive = Some script.sum_call /\
  exists w',
    receive_turn errors_New script.two_sent = Ret (None, w') /\
    calls w' !! 1%positive = Some (set_Reply (Some (Some "15.36")) script.sum_call) /\
    pending (client w') = {[ 2 := 2%positive ]} /\
    signals_of 1%positive (trace w') = [Send 1%positive 1%positive].
Proof.
  pose (h := {| ServiceMethod := "Foo.Sum"; Seq := 1; Error := "" |}).
  pose (c1 := snd (ReadHeader (cc (client script.two_sent)))).
  pose (c2 := snd (ReadBody true c1)).
  assert (Hheader : ReadHeader (cc (client script.two_sent)) = (inr h, c1)) by run.
  assert (Hpending : pending (client script.two_sent) !! Seq h = Some 1%positive) by run.
  assert (Hcall : calls script.two_sent !! 1%positive = Some script.sum_call) by run.
  assert (Hbody : ReadBody true c1 = ((None, Some "15.36"), c2)) by run.
  split; [exact Hpending|]. split; [exact Hcall|]. eexists. split.
  - exact (receive_turn_delivers_the_reply errors_New script.two_sent 1%positive
             script.sum_call h None c1 c2 None (Some "15.36")
             Hheader Hpending Hcall eq_refl eq_refl Hbody).
  - split; [run|]. split; run.
Defined.

(** Its second frame reports an error for call 2. *)
Lemma second_answer_fails_the_call :
  pending (client (script.turns 1 script.two_sent)) !! 2 = Some 2%positive /\
  calls (script.turns 1 script.two_sent) !! 2%positive = Some script.upper_call /\
  exists w',
    receive_turn errors_New (script.turns 1 script.two_sent) = Ret (None, w') /\
    calls w' !! 2%positive =
      Some (set_Call_Error (Some (errors_New "no such luck")) script.upper_call) /\
    pending (client w') = ∅ /\
    signals_of 2%positive (trace w') = [Send 2%positive 2%positive].
Proof.
  pose (w := script.turns 1 script.two_sent).
  pose (h := {| ServiceMethod := "Foo.Uppercase"; Seq := 2; Error := "no such luck" |}).
  pose (c1 := snd (ReadHeader (cc (client w)))).
  pose (c2 := snd (ReadBody false c1)).
  assert (Hheader : ReadHeader (cc (client w)) = (inr h, c1)) by run.
  assert (Hpending : pending (client w) !! Seq h = Some 2%positive) by run.
  assert (Hcall : calls w !! 2%positive = Some script.upper_call) by run.
  assert (Hbody : ReadBody false c1 = ((None, None), c2)) by run.
  assert (Herror : Error h <> "") by discriminate.
  split; [exact Hpending|]. split; [exact Hcall|]. eexists. split.
  - exact (receive_turn_fails_the_call_with_the_header_error errors_New w 2%positive
             script.upper_call h c1 c2 None None Hheader Hpending Hcall Herror Hbody).
  - split; [run|]. split; run.
Defined.

(** Its third frame answers a call 9 that was never made. *)
Lemma third_answer_is_dropped :
  pending (client (script.turns 2 script.two_sent)) !! 9 = None /\
  exists w',
    receive_turn errors_New (script.turns 2 script.two_sent) = Ret (None, w') /\
    calls w' = calls (script.turns 2 script.two_sent) /\
    pending (client w') = pending (client (script.turns 2 script.two_sent)) /\
    trace w' = (trace (script.turns 2 script.two_sent) ++ [Lock mu; Unlock mu])%list.
Proof.
  pose (w := script.turns 2 script.two_sent).
  pose (h := {| ServiceMethod := "Foo.Sum"; Seq := 9; Error := "" |}).
  pose (c1 := snd (ReadHeader (cc (client w)))).
  pose (c2 := snd (ReadBody false c1)).
  assert (Hheader : ReadHeader (cc (client w)) = (inr h, c1)) by run.
  assert (Hpending : pending (client w) !! Seq h = None) by run.
  assert (Hbody : ReadBody false c1 = ((None, None), c2)) by run.
  split; [exact Hpending|]. eexists. split.
  - exact (receive_turn_drops_an_unexpected_response errors_New w h c1 c2 None None
             Hheader Hpending Hbody).
  - split; [run|]. split; run.
Defined.
End ReceiveTurnExamples.

(** ** The table over a client's life *)

Section TableProps.
Import codec client_go client_calls.
Context {C Body : Type} `{!Codec C Body}.
Variable fmt_Errorf : string -> error.

Implicit Types (w : World (C := C) (Body := Body)) (l : loc).
Local Abbreviation W := (World (C := C) (Body := Body)).

Ltac step_rpc :=
  unfold emit, the_client, update, load_call, store_call, gret, gbind, gpanic;
  rewrite ?on_cc_eq;
  cbn [client calls chans trace with_client fst snd
       cc opt header seq pending closing shutdown
       set_cc set_header set_seq set_pending set_closing set_shutdown].

(** X12. Whatever a client has gone through since [newClientCodec]
    ([Go], turns of [receive], [Close], [IsAvailable], [terminateCalls]):
    every entry of the table points to a [Call] that carries the entry's
    key as its [Seq], so no [Call] is in the table twice; every signal in
    the log delivers a [Call] that exists; and as long as the client is not
    shut down, no call in the table has been signalled. *)
Theorem reachable_client_never_signals_a_pending_call w
    (Hreachable : reachable fmt_Errorf w) :
  (forall k l, pending (client w) !! k = Some l ->
     exists c, calls w !! l = Some c /\ Call_Seq c = k) /\
  (forall k1 k2 l, pending (client w) !! k1 = Some l ->
                   pending (client w) !! k2 = Some l -> k1 = k2) /\
  (forall ch l, Send ch l ∈ trace w -> is_Some (calls w !! l)) /\
  (shutdown (client w) = false ->
   forall k l, pending (client w) !! k = Some l -> forall ch, Send ch l ∉ trace w).
Proof.
  destruct (reachable_client_ok fmt_Errorf w Hreachable) as (Hpend & Halloc & Hquiet).
  split; [exact Hpend|]. split; [|by split].
  intros k1 k2 l H1 H2.
  destruct (Hpend k1 l H1) as (c1 & Hc1 & <-). destruct (Hpend k2 l H2) as (c2 & Hc2 & <-).
  congruence.
Qed.

(** X13. [registerCall] and [removeCall] are inverse to each other on
    an open client: the number [registerCall] returns is the counter's
    value; [removeCall] of that number returns the call that was
    registered and takes it out of the table; a second [removeCall] of the
    number returns nil. *)
Theorem registerCall_then_removeCall_returns_the_call w l (c : Call)
    (Hopen : closing (client w) || shutdown (client w) = false)
    (Hcall : calls w !! l = Some c) :
  exists w1 w2 w3,
    registerCall l w = Ret ((seq (client w), None), w1) /\
    pending (client w1) !! seq (client w) = Some l /\
    calls w1 !! l = Some (set_Call_Seq (seq (client w)) c) /\
    removeCall (seq (client w)) w1 = Ret (Some l, w2) /\
    pending (client w2) = delete (seq (client w)) (pending (client w)) /\
    removeCall (seq (client w)) w2 = Ret (None, w3) /\
    pending (client w3) = pending (client w2).
Proof.
  rewrite (registerCall_open w l c Hopen Hcall).
  eexists _, _, _. split; [reflexivity|]. cbn [client pending set_seq set_pending calls].
  split; [apply lookup_insert_eq|]. split; [apply lookup_insert_eq|].
  rewrite removeCall_eq. cbn [client pending set_seq set_pending with_client logged].
  rewrite lookup_insert_eq. split; [reflexivity|].
  split; [apply delete_insert_eq|].
  rewrite removeCall_eq. cbn [client pending set_seq set_pending with_client logged].
  rewrite lookup_delete_eq. split; [reflexivity|].
  by rewrite delete_insert_eq, delete_delete_eq.
Qed.

(** X14. [IsAvailable] tells whether a call would be accepted: it
    returns true exactly when [registerCall] succeeds, and false exactly
    when [registerCall] fails with [ErrShutdown]; it changes nothing but
    the log, where it leaves the taking and the release of [mu]. *)
Theorem IsAvailable_tells_whether_registerCall_succeeds w l (c : Call)
    (Hcall : calls w !! l = Some c) :
  exists (b : bool) (r : Z * option error) w2,
    IsAvailable w = Ret (b, logged [Lock mu; Unlock mu] w) /\
    registerCall l w = Ret (r, w2) /\
    (b = true <-> snd r = None) /\
    (b = false <-> r = (0, Some ErrShutdown)).
Proof.
  rewrite IsAvailable_eq.
  destruct (closing (client w) || shutdown (client w)) eqn:Hterm.
  - rewrite (registerCall_terminal w l Hterm).
    eexists _, _, _. split; [reflexivity|]. split; [reflexivity|]. cbn.
    destruct (shutdown (client w)), (closing (client w)); try done; by split.
  - rewrite (registerCall_open w l c Hterm Hcall).
    eexists _, _, _. split; [reflexivity|]. split; [reflexivity|]. cbn.
    destruct (shutdown (client w)), (closing (client w)); try done; by split.
Qed.

(** *** The two flags only go up *)

Local Abbreviation raising := (raising (C := C) (Body := Body)).

Lemma raises_refl (cl : Client (C := C)) : raises cl cl.
Proof. by split. Qed.

Lemma raising_bind {A B} (m : G W A) (k : A -> G W B) :
  raising m -> (forall a, raising (k a)) -> raising (gbind m k).
Proof.
  intros Hm Hk w b w' (a & w1 & H1 & H2)%gbind_inv.
  destruct (Hm _ _ _ H1) as [Hc1 Hs1]. destruct (Hk _ _ _ _ H2) as [Hc2 Hs2].
  split; auto.
Qed.

Lemma raising_same {A} (m : G W A) :
  (forall w a w', m w = Ret (a, w') -> client w' = client w) -> raising m.
Proof. intros Hm w a w' Hrun. rewrite (Hm _ _ _ Hrun). apply raises_refl. Qed.

Lemma raising_update (f : Client -> Client) :
  (forall cl, raises cl (f cl)) -> raising (update f).
Proof. intros Hf w a w'. unfold update. intros [= _ <-]. apply Hf. Qed.

Lemma raising_on_cc {A} (f : C -> A * C) : raising (on_cc f).
Proof. intros w a w'. rewrite on_cc_eq. intros [= _ <-]. by split. Qed.

Lemma raising_for_each {A} (xs : list A) (body : A -> G W unit) :
  (forall x, raising (body x)) -> raising (for_each xs body).
Proof.
  intros Hbody. induction xs as [|x xs IH]; cbn [for_each].
  - apply raising_same. unfold gret. by intros w a w' [= _ <-].
  - apply raising_bind; [apply Hbody|]. by intros _.
Qed.

Ltac raise_prim :=
  first
    [ apply raising_on_cc
    | apply raising_update; intros ?; by split
    | apply raising_same; intros ? ? ?;
      unfold gret, emit, the_client, load_call, store_call, make_chan, cap, new_call, gpanic;
      repeat case_match; try done; by intros [= _ <-] ].

Ltac raise_all :=
  repeat first
    [ apply raising_bind; [|intros ?]
    | raise_prim
    | match goal with
      | |- raising (match ?x with _ => _ end) => destruct x
      | |- raising (let '(_, _) := ?x in _) => destruct x
      end ].

Lemma raising_done l : raising (done l).
Proof. unfold done. raise_all. Qed.

Lemma raising_registerCall l : raising (registerCall l).
Proof. unfold registerCall. raise_all. Qed.

Lemma raising_removeCall (k : Z) : raising (removeCall k).
Proof. unfold removeCall. raise_all. Qed.

Lemma raising_send l : raising (send l).
Proof.
  unfold send. apply raising_bind; [raise_prim|]. intros _.
  apply raising_bind; [apply raising_registerCall|]. intros [s err].
  destruct err as [e|].
  - apply raising_bind; [raise_prim|]. intros _.
    apply raising_bind; [apply raising_done|]. intros _. raise_prim.
  - repeat (apply raising_bind; [raise_prim|]; intros ?).
    apply raising_bind; [|intros _; raise_prim].
    match goal with |- raising (match ?x with _ => _ end) => destruct x end; [|raise_prim].
    apply raising_bind; [apply raising_removeCall|]. intros [l'|]; [|raise_prim].
    apply raising_bind; [raise_prim|]. intros _. apply raising_done.
Qed.

Lemma raising_Go (sm : string) (args : Body) (reply : option (option Body))
    (d : option chan) : raising (Go sm args reply d).
Proof.
  unfold Go. apply raising_bind.
  - destruct d as [ch|]; [|raise_prim].
    apply raising_bind; [raise_prim|]. intros n. destruct (n =? 0)%nat; raise_prim.
  - intros ch. apply raising_bind; [raise_prim|]. intros l.
    apply raising_bind; [apply raising_send|]. intros _. raise_prim.
Qed.

Lemma raising_receive_turn : raising (receive_turn fmt_Errorf).
Proof.
  unfold receive_turn. apply raising_bind; [raise_prim|]. intros [err|h]; [raise_prim|].
  apply raising_bind; [apply raising_removeCall|]. intros call.
  apply raising_bind; [|intros ?; raise_prim].
  destruct call as [l|].
  - destruct (negb (bool_decide (Error h = ""))).
    + apply raising_bind; [raise_prim|]. intros _.
      apply raising_bind; [raise_prim|]. intros rb.
      apply raising_bind; [apply raising_done|]. intros _. raise_prim.
    + apply raising_bind; [raise_prim|]. intros c.
      apply raising_bind; [raise_prim|]. intros rb.
      apply raising_bind; [destruct (snd rb); raise_prim|]. intros _.
      apply raising_bind; [destruct (fst rb); raise_prim|]. intros _.
      apply raising_bind; [apply raising_done|]. intros _. raise_prim.
  - apply raising_bind; [raise_prim|]. intros rb. raise_prim.
Qed.

Lemma raising_Close : raising Close.
Proof.
  unfold Close. apply raising_bind; [raise_prim|]. intros _.
  apply raising_bind; [raise_prim|]. intros cl. destruct (closing cl).
  - apply raising_bind; [raise_prim|intros _; raise_prim].
  - apply raising_bind; [raise_prim|]. intros _.
    apply raising_bind; [raise_prim|]. intros e.
    apply raising_bind; [raise_prim|intros _; raise_prim].
Qed.

Lemma raising_terminateCalls err : raising (terminateCalls err).
Proof.
  unfold terminateCalls.
  apply raising_bind; [raise_prim|]. intros _.
  apply raising_bind; [raise_prim|]. intros _.
  apply raising_bind; [raise_prim|]. intros _.
  apply raising_bind; [raise_prim|]. intros cl.
  apply raising_bind.
  - apply raising_for_each. intros [k l].
    apply raising_bind; [raise_prim|]. intros _. apply raising_done.
  - intros _. apply raising_bind; [raise_prim|intros _; raise_prim].
Qed.

(** X15. [closing] and [shutdown] are never reset: whatever a client
    does next ([Go], a turn of [receive], [Close], [IsAvailable],
    [terminateCalls]), a flag that is set stays set; so a client that has
    become unavailable stays unavailable, and keeps failing calls with
    [ErrShutdown]. *)
Theorem closing_and_shutdown_are_never_reset w w' l
    (Hstep : (exists sm args reply d call, Go sm args reply d w = Ret (call, w')) \/
             (exists r, receive_turn fmt_Errorf w = Ret (r, w')) \/
             (exists e, Close w = Ret (e, w')) \/
             (exists b, IsAvailable w = Ret (b, w')) \/
             (exists err a, terminateCalls err w = Ret (a, w'))) :
  (closing (client w) = true -> closing (client w') = true) /\
  (shutdown (client w) = true -> shutdown (client w') = true) /\
  (IsAvailable w = Ret (false, logged [Lock mu; Unlock mu] w) ->
   IsAvailable w' = Ret (false, logged [Lock mu; Unlock mu] w')) /\
  (closing (client w) || shutdown (client w) = true ->
   registerCall l w' = Ret ((0, Some ErrShutdown), logged [Lock mu; Unlock mu] w')).
Proof.
  assert (Hup : raises (client w) (client w')).
  { destruct Hstep as [(sm & args & reply & d & call & Hrun)|[(r & Hrun)|[(e & Hrun)|
                       [(b & Hrun)|(err & a & Hrun)]]]].
    - by apply (raising_Go _ _ _ _ _ _ _ Hrun).
    - by apply (raising_receive_turn _ _ _ Hrun).
    - by apply (raising_Close _ _ _ Hrun).
    - rewrite IsAvailable_eq in Hrun. injection Hrun as _ <-. apply raises_refl.
    - by apply (raising_terminateCalls _ _ _ _ Hrun). }
  destruct Hup as [Hc Hs]. split; [done|]. split; [done|]. split.
  - rewrite !IsAvailable_eq. intros [= Hav]. do 2 f_equal.
    destruct (shutdown (client w)); [by rewrite Hs|].
    destruct (closing (client w)); [|done]. rewrite Hc by done.
    by destruct (shutdown (client w')).
  - intros Hterm. apply registerCall_terminal.
    destruct (closing (client w)); [by rewrite Hc|].
    cbn in Hterm. rewrite Hs by done. by destruct (closing (client w')).
Qed.
End TableProps.

Section TableExamples.
Import codec client_go.

Ltac run := vm_compute; reflexivity.

Lemma one_answered_reachable : reachable errors_New (script.turns 1 script.two_sent).
Proof.
  eapply (reach_turn _ script.two_sent None).
  - eapply (reach_Go _ script.one_sent "Foo.Uppercase" "hello" (Some None) None 2%positive).
    + eapply (reach_Go _ script.fresh_client "Foo.Sum" "10.24+5.12" (Some None) None
                1%positive).
      * apply reach_new.
      * run.
    + run.
  - run.
Qed.

(** After two [Go]s and the answer to the first: call 1 has been
    signalled, and call 2 is in the table and has not been. *)
Lemma pending_call_2_is_not_signalled :
  shutdown (client (script.turns 1 script.two_sent)) = false /\
  pending (client (script.turns 1 script.two_sent)) !! 2 = Some 2%positive /\
  signals_of 1%positive (trace (script.turns 1 script.two_sent))
    = [Send 1%positive 1%positive] /\
  forall ch, Send ch 2%positive ∉ trace (script.turns 1 script.two_sent).
Proof.
  assert (Hlive : shutdown (client (script.turns 1 script.two_sent)) = false) by run.
  assert (Hpending : pending (client (script.turns 1 script.two_sent)) !! 2
                     = Some 2%positive) by run.
  split; [exact Hlive|]. split; [exact Hpending|]. split; [run|].
  destruct (reachable_client_never_signals_a_pending_call errors_New
              (script.turns 1 script.two_sent) one_answered_reachable)
    as (_ & _ & _ & Hquiet).
  exact (Hquiet Hlive 2 2%positive Hpending).
Defined.

(** Registering the call and removing number 1 gives the call back. *)
Lemma register_then_remove_call_1 :
  closing (client (script.with_call false)) || shutdown (client (script.with_call false))
    = false /\
  calls (script.with_call false) !! 1%positive = Some script.a_call /\
  exists w1 w2 w3,
    registerCall 1%positive (script.with_call false)
      = Ret ((seq (client (script.with_call false)), None), w1) /\
    pending (client w1) !! seq (client (script.with_call false)) = Some 1%positive /\
    calls w1 !! 1%positive
      = Some (set_Call_Seq (seq (client (script.with_call false))) script.a_call) /\
    removeCall (seq (client (script.with_call false))) w1 = Ret (Some 1%positive, w2) /\
    pending (client w2) =
      delete (seq (client (script.with_call false)))
        (pending (client (script.with_call false))) /\
    removeCall (seq (client (script.with_call false))) w2 = Ret (None, w3) /\
    pending (client w3) = pending (client w2).
Proof.
  assert (Hopen : closing (client (script.with_call false))
                  || shutdown (client (script.with_call false)) = false) by run.
  assert (Hcall : calls (script.with_call false) !! 1%positive = Some script.a_call) by run.
  split; [exact Hopen|]. split; [exact Hcall|].
  exact (registerCall_then_removeCall_returns_the_call (script.with_call false)
           1%positive script.a_call Hopen Hcall).
Defined.

(** A client that is just made is available, and accepts the call. *)
Lemma new_client_is_available :
  calls (script.with_call false) !! 1%positive = Some script.a_call /\
  exists (b : bool) (r : Z * option error) w2,
    IsAvailable (script.with_call false) =
      Ret (b, logged [Lock mu; Unlock mu] (script.with_call false)) /\
    registerCall 1%positive (script.with_call false) = Ret (r, w2) /\
    (b = true <-> snd r = None) /\
    (b = false <-> r = (0, Some ErrShutdown)).
Proof.
  assert (Hcall : calls (script.with_call false) !! 1%positive = Some script.a_call) by run.
  split; [exact Hcall|].
  exact (IsAvailable_tells_whether_registerCall_succeeds (script.with_call false)
           1%positive script.a_call Hcall).
Defined.

(** A [Go] on a client that was closed leaves it closed. *)
Lemma closed_client_stays_closed :
  let w := script.closed_with_call in
  let w' := script.after_Go "Foo.Sum" "1+2" script.closed_with_call in
  closing (client w) = true /\
  Go "Foo.Sum" "1+2" (Some None) None w = Ret (2%positive, w') /\
  (closing (client w) = true -> closing (client w') = true) /\
  (shutdown (client w) = true -> shutdown (client w') = true) /\
  (IsAvailable w = Ret (false, logged [Lock mu; Unlock mu] w) ->
   IsAvailable w' = Ret (false, logged [Lock mu; Unlock mu] w')) /\
  (closing (client w) || shutdown (client w) = true ->
   registerCall 1%positive w' =
     Ret ((0, Some ErrShutdown), logged [Lock mu; Unlock mu] w')).
Proof.
  intros w w'.
  assert (HGo : Go "Foo.Sum" "1+2" (Some None) None w = Ret (2%positive, w')) by run.
  split; [run|]. split; [exact HGo|].
  apply (closing_and_shutdown_are_never_reset errors_New w w' 1%positive).
  left. exists "Foo.Sum", "1+2", (Some None), None, 2%positive. exact HGo.
Defined.
End TableExamples.
